(** * Reverse-complement equivariant modules (mamba_ssm/modules/rc_wrapper.py)

    A shallow embedding of the tensor-level behaviour of the RCPS modules:
    [RCPSEmbedding], [RCPSWrapper], [RCPSWrapperKeepDim], [RCPSAddNormWrapper],
    [RCPSAddNormWrapperKeepDim], [RCPSLMHead] and [RCPSCollapse].

    Tensors are nested lists, outermost dimension first: a tensor of shape
    (batch, length, channels) is a list of [batch] matrices, each a list of
    [length] rows of [channels] scalars.  Tensors are rectangular; the
    predicate [has_shape] states it.  A nested list does not record the
    size of a dimension that lies below an empty one, so a size check on
    such a tensor (no row at all, or a weight without rows) has nothing to
    reject.  Scalars are kept abstract ([Scalar]): the modules only add,
    multiply and halve them, and the laws a statement needs (commutative
    addition, halving a double) are premises of that statement.  A call
    that raises in Python returns [None] here; constructors, whose
    exception matters, return a [result]. *)

From Stdlib Require Import PrimFloat.
From Stdlib Require Import String ZArith List Bool Lia PeanoNat.
Import ListNotations.

Set Implicit Arguments.

(** ** Scalars *)

Class Scalar (R : Type) : Type := {
  sadd : R -> R -> R;
  smul : R -> R -> R;
  szero : R;
  shalf : R -> R   (* [x / 2] *)
}.

(** Integers, for concrete runs that add and multiply.  Halving an integer
    rounds down, so it is the division of the program on even numbers only:
    the integer runs below show shapes and equalities between results, and
    the values of a collapse are shown on [Float_Scalar]. *)
#[global] Instance Z_Scalar : Scalar Z := {
  sadd := Z.add;
  smul := Z.mul;
  szero := 0%Z;
  shalf := fun a => (a / 2)%Z
}.

(** Binary64 floats, the scalars of a [torch.float64] tensor: addition,
    multiplication and the true division [x / 2] of IEEE 754. *)
Definition Float_Scalar : Scalar PrimFloat.float := {|
  sadd := PrimFloat.add;
  smul := PrimFloat.mul;
  szero := PrimFloat.zero;
  shalf := fun a => PrimFloat.div a PrimFloat.two
|}.

(** The largest finite binary64 number. *)
Definition float_max : PrimFloat.float :=
  Eval cbv in PrimFloat.next_down PrimFloat.infinity.

(** ** Exceptions as values *)

Declare Scope exn_scope.
Delimit Scope exn_scope with exn.

Notation "x <- e ;; k" :=
  (match e with Some x => k | None => None end)
  (at level 61, e at next level, right associativity) : exn_scope.

Open Scope exn_scope.

Inductive exn : Type :=
| AssertionError (msg : string)
| RuntimeError (msg : string).

Inductive result (A : Type) : Type :=
| Ok (a : A)
| Raise (e : exn).

Arguments Ok {A} a.
Arguments Raise {A} e.

Notation "x <-! e ;; k" :=
  (match e with Ok x => k | Raise err => Raise err end)
  (at level 61, e at next level, right associativity) : exn_scope.

Definition raises {A} (r : result A) : bool :=
  match r with Ok _ => false | Raise _ => true end.

(** ** Tensor primitives *)

Abbreviation Tensor1 R := (list R) (only parsing).
Abbreviation Tensor2 R := (list (list R)) (only parsing).
Abbreviation Tensor3 R := (list (list (list R))) (only parsing).

Module Torch.

Section Generic.
Context {A B C : Type}.

(** Apply a fallible function to every element; the first failure wins. *)
Fixpoint mapM (f : A -> option B) (l : list A) : option (list B) :=
  match l with
  | [] => Some []
  | a :: l' => b <- f a ;; r <- mapM f l' ;; Some (b :: r)
  end.

(** Combine two lists position by position; the sizes must agree. *)
Fixpoint zipM (f : A -> B -> option C) (l1 : list A) (l2 : list B)
  : option (list C) :=
  match l1, l2 with
  | [], [] => Some []
  | a :: l1', b :: l2' => c <- f a b ;; r <- zipM f l1' l2' ;; Some (c :: r)
  | _, _ => None
  end.

End Generic.

Section Shapes.
Context {R : Type}.

(** [x.shape == (b, l, c)] for a rectangular nested list. *)
Definition has_shape (b l c : nat) (x : Tensor3 R) : bool :=
  (length x =? b) &&
  forallb (fun m => (length m =? l) && forallb (fun r => length r =? c) m) x.

(** [w.shape == (rows, cols)]. *)
Definition has_shape2 (rows cols : nat) (w : Tensor2 R) : bool :=
  (length w =? rows) && forallb (fun r => length r =? cols) w.

(** [x.shape[-1]], read off the first row (every row has that size). *)
Definition shape_last (x : Tensor3 R) : nat :=
  match x with
  | (r :: _) :: _ => length r
  | _ => 0
  end.

(** [torch.flip(x, dims=[-1])] on a tensor of shape (batch, length). *)
Definition flip_last2 (x : Tensor2 R) : Tensor2 R := map (@rev R) x.

(** [torch.flip(x, dims=[-1])] on a tensor of shape (batch, length, channels). *)
Definition flip_last (x : Tensor3 R) : Tensor3 R := map (map (@rev R)) x.

(** [torch.flip(x, dims=[-2, -1])]: length and channel axes. *)
Definition flip_matrix (m : Tensor2 R) : Tensor2 R := rev (map (@rev R) m).
Definition flip (x : Tensor3 R) : Tensor3 R := map flip_matrix x.

(** [torch.cat([x, y], dim=-1)]; the other dimensions must agree. *)
Definition cat_last (x y : Tensor3 R) : option (Tensor3 R) :=
  zipM (zipM (fun a b => Some (a ++ b))) x y.

(** [x[..., :k]] and [x[..., k:]] for [0 <= k]. *)
Definition slice_to (k : nat) (x : Tensor3 R) : Tensor3 R :=
  map (map (firstn k)) x.
Definition slice_from (k : nat) (x : Tensor3 R) : Tensor3 R :=
  map (map (skipn k)) x.

(** [t[i]] for an index tensor entry [i]: negative indices count from the
    end, anything else out of range raises. *)
Definition index (t : list R) (i : Z) : option R :=
  let n := Z.of_nat (length t) in
  if (0 <=? i)%Z then nth_error t (Z.to_nat i)
  else if (- n <=? i)%Z then nth_error t (Z.to_nat (i + n))
  else None.

(** [F.embedding(ids, weight)]: row [id] of the table; an id outside
    [0, num_embeddings) raises. *)
Definition embedding_row (weight : Tensor2 R) (id : Z) : option (list R) :=
  if (id <? 0)%Z then None else nth_error weight (Z.to_nat id).

Definition embedding (ids : Tensor2 Z) (weight : Tensor2 R) : option (Tensor3 R) :=
  mapM (mapM (embedding_row weight)) ids.

End Shapes.

Section Arith.
Context {R : Type} `{Scalar R}.

(** Elementwise [x + y] on operands of one shape.  Operands of different
    shapes (which torch broadcasts or rejects) are outside the model: [None]. *)
Definition add_row (a b : list R) : option (list R) :=
  zipM (fun u v => Some (sadd u v)) a b.

Definition add (x y : Tensor3 R) : option (Tensor3 R) :=
  zipM (zipM add_row) x y.

(** [x / 2]. *)
Definition halve (x : Tensor3 R) : Tensor3 R := map (map (map shalf)) x.

Definition dot (x w : list R) : R :=
  fold_right sadd szero (map (fun p => smul (fst p) (snd p)) (combine x w)).

(** [F.linear(x, weight, bias)] on one row: [x @ weight.T + bias].  The
    row must have [in_features] entries (the width of [weight]). *)
Definition linear_row (weight : Tensor2 R) (bias : option (list R))
  (x : list R) : option (list R) :=
  if forallb (fun w => length w =? length x) weight then
    let y := map (dot x) weight in
    match bias with
    | None => Some y
    | Some b => add_row y b
    end
  else None.

Definition linear (x : Tensor3 R) (weight : Tensor2 R) (bias : option (list R))
  : option (Tensor3 R) :=
  mapM (mapM (linear_row weight bias)) x.

End Arith.

End Torch.

(** ** Parameter allocation ([torch.nn] constructors)

    A constructor allocates parameters of given sizes; their initial values
    are random and play no role, so a constructed layer is recorded by its
    sizes.  Allocating a tensor with a negative size raises.  Whether torch
    can allocate a large tensor (sizes and values within int64, memory) is
    not modelled: here every non-negative size is allocated, so a success of
    a constructor stands for a success up to allocation. *)

Module nn.

Record Linear : Type := {
  in_features : Z;
  out_features : Z;
  with_bias : bool
}.

Record Embedding : Type := {
  num_embeddings : Z;
  embedding_dim : Z
}.

Definition negative_dimension : exn :=
  RuntimeError "Trying to create tensor with negative dimension".

Definition Linear_init (in_f out_f : Z) (bias : bool) : result Linear :=
  if ((in_f <? 0) || (out_f <? 0))%Z then Raise negative_dimension
  else Ok {| in_features := in_f; out_features := out_f; with_bias := bias |}.

Definition Embedding_init (num dim : Z) : result Embedding :=
  if ((num <? 0) || (dim <? 0))%Z then Raise negative_dimension
  else Ok {| num_embeddings := num; embedding_dim := dim |}.

(** The weights [w], [b] are those of a layer allocated as [l]. *)
Definition Linear_holds {R} (l : Linear) (w : Tensor2 R) (b : option (list R))
  : bool :=
  Torch.has_shape2 (Z.to_nat (out_features l)) (Z.to_nat (in_features l)) w &&
  match b with
  | Some bv => with_bias l && (length bv =? Z.to_nat (out_features l))
  | None => negb (with_bias l)
  end.

End nn.

(** ** Ordered dictionaries with integer keys and values *)

Module OrderedDict.

(** Items in insertion order. *)
Definition t : Type := list (Z * Z).

(** [d[k] = v]: an existing key keeps its position, a new key goes last. *)
Fixpoint setitem (k v : Z) (d : t) : t :=
  match d with
  | [] => [(k, v)]
  | (k', v') :: d' =>
      if (k' =? k)%Z then (k, v) :: d' else (k', v') :: setitem k v d'
  end.

(** [OrderedDict(items)]. *)
Definition make (items : list (Z * Z)) : t :=
  fold_left (fun d kv => setitem (fst kv) (snd kv) d) items [].

Definition keys (d : t) : list Z := map fst d.
Definition values (d : t) : list Z := map snd d.

(** [d[k]], the key-to-value reading. *)
Fixpoint getitem (d : t) (k : Z) : option Z :=
  match d with
  | [] => None
  | (k', v) :: d' => if (k' =? k)%Z then Some v else getitem d' k
  end.

(** A Python [dict]: no key occurs twice. *)
Definition is_dict (items : list (Z * Z)) : Prop := NoDup (map fst items).

End OrderedDict.

(** ** RCPSEmbedding *)

Module RCPSEmbedding.

(** What [__init__] leaves in the module. *)
Record t : Type := {
  complement_map : list Z;
  embedding : nn.Embedding;
  proj : nn.Linear
}.

(** The [complement_map] buffer registered by [__init__]. *)
Definition complement_buffer (complement_map : list (Z * Z)) : list Z :=
  OrderedDict.values (OrderedDict.make complement_map).

Definition init (vocab_size d_model : Z) (complement_map : list (Z * Z))
  : result t :=
  let buf := complement_buffer complement_map in
  emb <-! nn.Embedding_init vocab_size d_model ;;
  if (d_model mod 2 =? 0)%Z then
    p <-! nn.Linear_init d_model (d_model / 2) true ;;
    Ok {| complement_map := buf; embedding := emb; proj := p |}
  else Raise (AssertionError "d_model must be even!").

(** [vmap_complement]: [complement_map[t]] for every row [t] of the batch. *)
Definition vmap_complement (cmap : list Z) (x : Tensor2 Z) : option (Tensor2 Z) :=
  Torch.mapM (Torch.mapM (Torch.index cmap)) x.

Definition rc (cmap : list Z) (x : Tensor2 Z) : option (Tensor2 Z) :=
  vmap_complement cmap (Torch.flip_last2 x).

Section Forward.
Context {R : Type} `{Scalar R}.

(** The learned parameters: embedding table, projection weight and bias. *)
Variable weight : Tensor2 R.
Variable proj_weight : Tensor2 R.
Variable proj_bias : option (list R).
Variable cmap : list Z.

Definition forward (input_ids : Tensor2 Z) : option (Tensor3 R) :=
  e <- Torch.embedding input_ids weight ;;
  fwd_out <- Torch.linear e proj_weight proj_bias ;;
  rc_ids <- rc cmap input_ids ;;
  e_rc <- Torch.embedding rc_ids weight ;;
  p_rc <- Torch.linear e_rc proj_weight proj_bias ;;
  Torch.cat_last fwd_out (Torch.flip p_rc).

End Forward.

End RCPSEmbedding.

(** ** RCPSWrapper

    The wrapped submodule is any function on tensors that may raise; keyword
    arguments are part of the function. *)

Module RCPSWrapper.

Section Forward.
Context {R : Type}.
Variable submodule : Tensor3 R -> option (Tensor3 R).

Definition rc (x : Tensor3 R) : Tensor3 R := Torch.flip x.

Definition forward (x : Tensor3 R) : option (Tensor3 R) :=
  fwd_out <- submodule x ;;
  rc_out <- submodule (rc x) ;;
  Torch.cat_last fwd_out (rc rc_out).

End Forward.

End RCPSWrapper.

(** ** RCPSWrapperKeepDim *)

Module RCPSWrapperKeepDim.

Record t : Type := { proj : nn.Linear }.

Definition init (dim : Z) : result t :=
  if (dim mod 2 =? 0)%Z then
    p <-! nn.Linear_init dim (dim / 2) true ;;
    Ok {| proj := p |}
  else Raise (AssertionError "dim must be even!").

Section Forward.
Context {R : Type} `{Scalar R}.
Variable submodule : Tensor3 R -> option (Tensor3 R).
Variable proj_weight : Tensor2 R.
Variable proj_bias : option (list R).

Definition forward (x : Tensor3 R) : option (Tensor3 R) :=
  s_fwd <- submodule x ;;
  fwd_out <- Torch.linear s_fwd proj_weight proj_bias ;;
  s_rc <- submodule (RCPSWrapper.rc x) ;;
  rc_out <- Torch.linear s_rc proj_weight proj_bias ;;
  Torch.cat_last fwd_out (RCPSWrapper.rc rc_out).

End Forward.

End RCPSWrapperKeepDim.

(** ** RCPSAddNormWrapper

    [norm_f] is any normalisation layer; [to_dtype] is the elementwise cast
    [.to(dtype=self.norm_f.weight.dtype)]. *)

Module RCPSAddNormWrapper.

Section Forward.
Context {R : Type} `{Scalar R}.
Variable norm_f : Tensor3 R -> option (Tensor3 R).
Variable to_dtype : R -> R.

Definition rc (x : Tensor3 R) : Tensor3 R := Torch.flip x.

Definition cast (x : Tensor3 R) : Tensor3 R := map (map (map to_dtype)) x.

Definition forward (x : Tensor3 R) (residual : option (Tensor3 R))
  : option (Tensor3 R * Tensor3 R) :=
  residual_fwd <- match residual with
                  | Some r => Torch.add x r
                  | None => Some x
                  end ;;
  x_fwd <- norm_f (cast residual_fwd) ;;
  residual_rc <- match residual with
                 | Some r => Torch.add (rc x) (rc r)
                 | None => Some (rc x)
                 end ;;
  x_rc <- norm_f (cast residual_rc) ;;
  residual' <- Torch.cat_last residual_fwd (rc residual_rc) ;;
  x' <- Torch.cat_last x_fwd (rc x_rc) ;;
  Some (x', residual').

End Forward.

End RCPSAddNormWrapper.

(** ** RCPSAddNormWrapperKeepDim *)

Module RCPSAddNormWrapperKeepDim.

Record t : Type := { res_proj : nn.Linear }.

Definition init (dim : Z) : result t :=
  p <-! nn.Linear_init dim (dim / 2) false ;;
  Ok {| res_proj := p |}.

Section Forward.
Context {R : Type} `{Scalar R}.
Variable norm_f : Tensor3 R -> option (Tensor3 R).
Variable to_dtype : R -> R.
Variable res_proj_weight : Tensor2 R.

Definition forward (x : Tensor3 R) (residual : option (Tensor3 R))
  : option (Tensor3 R * Tensor3 R) :=
  sum_fwd <- match residual with
             | Some r => Torch.add x r
             | None => Some x
             end ;;
  residual_fwd <- Torch.linear sum_fwd res_proj_weight None ;;
  x_fwd <- norm_f (RCPSAddNormWrapper.cast to_dtype residual_fwd) ;;
  sum_rc <- match residual with
            | Some r => Torch.add (RCPSAddNormWrapper.rc x) (RCPSAddNormWrapper.rc r)
            | None => Some (RCPSAddNormWrapper.rc x)
            end ;;
  residual_rc <- Torch.linear sum_rc res_proj_weight None ;;
  x_rc <- norm_f (RCPSAddNormWrapper.cast to_dtype residual_rc) ;;
  residual' <- Torch.cat_last residual_fwd (RCPSAddNormWrapper.rc residual_rc) ;;
  x' <- Torch.cat_last x_fwd (RCPSAddNormWrapper.rc x_rc) ;;
  Some (x', residual').

End Forward.

End RCPSAddNormWrapperKeepDim.

(** ** RCPSLMHead *)

Module RCPSLMHead.

Record t : Type := { lm_head : nn.Linear }.

Definition init (true_dim vocab_size : Z) : result t :=
  p <-! nn.Linear_init true_dim vocab_size false ;;
  Ok {| lm_head := p |}.

Section Forward.
Context {R : Type} `{Scalar R}.
Variable weight : Tensor2 R.

Definition forward (x : Tensor3 R) : option (Tensor3 R) :=
  let n_channels := Torch.shape_last x in
  fwd_logits <- Torch.linear (Torch.slice_to (n_channels / 2) x) weight None ;;
  rc_logits <- Torch.linear
                 (Torch.flip_last (Torch.slice_from (n_channels / 2) x))
                 weight None ;;
  Torch.add fwd_logits (Torch.flip_last rc_logits).

(** The same computation on a single row with halves of [d] channels. *)
Definition forward_row (d : nat) (r : list R) : option (list R) :=
  fwd_logits <- Torch.linear_row weight None (firstn d r) ;;
  rc_logits <- Torch.linear_row weight None (rev (skipn d r)) ;;
  Torch.add_row fwd_logits (rev rc_logits).

End Forward.

End RCPSLMHead.

(** ** RCPSCollapse *)

Module RCPSCollapse.

Section Forward.
Context {R : Type} `{Scalar R}.

Definition forward (x : Tensor3 R) : option (Tensor3 R) :=
  let num_channels := Torch.shape_last x in
  s <- Torch.add (Torch.slice_to (num_channels / 2) x)
                 (Torch.flip (Torch.slice_from (num_channels / 2) x)) ;;
  Some (Torch.halve s).

End Forward.

End RCPSCollapse.

(** ** The readings the statements below compare the code with *)

Module Spec.

(** Every id of the batch is a vocabulary id. *)
Definition ids_in_range (vocab_size : Z) (s : Tensor2 Z) : Prop :=
  Forall (Forall (fun i => (0 <= i < vocab_size)%Z)) s.

(** Looking an id up twice in the complement buffer gives it back. *)
Definition involutive_on (vocab_size : Z) (cmap : list Z) : Prop :=
  forall i, (0 <= i < vocab_size)%Z ->
    (j <- Torch.index cmap i ;; Torch.index cmap j) = Some i.

(** The complement of an id, with a default where the lookup raises. *)
Definition complement_or_zero (cmap : list Z) (i : Z) : Z :=
  match Torch.index cmap i with Some j => j | None => 0%Z end.

(** The keys of a mapping are [0, 1, ..., n-1] in iteration order. *)
Definition keys_in_order (m : list (Z * Z)) : Prop :=
  OrderedDict.keys m = map Z.of_nat (seq 0 (length m)).

Section Readings.
Context {R : Type} `{Scalar R}.

(** The row a linear layer returns on a row of the right size. *)
Definition linear_row_out (w : Tensor2 R) (bias : option (list R))
  (r : list R) : list R :=
  match bias with
  | None => map (Torch.dot r) w
  | Some bv => map (fun p => sadd (fst p) (snd p))
                 (combine (map (Torch.dot r) w) bv)
  end.

(** One row of LM-head logits, in the words of the description: the linear
    map on the forward half, plus the vocabulary flip of the linear map on
    the channel flip of the reverse half. *)
Definition lm_head_row (true_dim : nat) (w : Tensor2 R) (r : list R) : list R :=
  map (fun p => sadd (fst p) (snd p))
    (combine (map (Torch.dot (firstn true_dim r)) w)
             (rev (map (Torch.dot (rev (skipn true_dim r))) w))).

Definition lm_head (true_dim : nat) (w : Tensor2 R) (x : Tensor3 R) : Tensor3 R :=
  map (map (lm_head_row true_dim w)) x.

(** The add-norm result read without flipping the reverse branch back: the
    two normalised sums side by side, and the two sums side by side. *)
Definition addnorm_unflipped (norm_f : Tensor3 R -> option (Tensor3 R))
  (to_dtype : R -> R) (x : Tensor3 R) (residual : option (Tensor3 R))
  : option (Tensor3 R * Tensor3 R) :=
  residual_fwd <- match residual with
                  | Some r => Torch.add x r
                  | None => Some x
                  end ;;
  x_fwd <- norm_f (RCPSAddNormWrapper.cast to_dtype residual_fwd) ;;
  residual_rc <- match residual with
                 | Some r => Torch.add (Torch.flip x) (Torch.flip r)
                 | None => Some (Torch.flip x)
                 end ;;
  x_rc <- norm_f (RCPSAddNormWrapper.cast to_dtype residual_rc) ;;
  residual' <- Torch.cat_last residual_fwd residual_rc ;;
  x' <- Torch.cat_last x_fwd x_rc ;;
  Some (x', residual').

(** The add-norm result with the reverse branch flipped back: everything is
    computed from the one residual sum [s]; the reverse branch normalises
    the flip of [s] and is flipped back before the concatenation, and the
    propagated residual carries [s] in both channel halves. *)
Definition residual_sum (x : Tensor3 R) (residual : option (Tensor3 R))
  : option (Tensor3 R) :=
  match residual with
  | Some r => Torch.add x r
  | None => Some x
  end.

Definition addnorm_flipped_back (norm_f : Tensor3 R -> option (Tensor3 R))
  (to_dtype : R -> R) (x : Tensor3 R) (residual : option (Tensor3 R))
  : option (Tensor3 R * Tensor3 R) :=
  s <- residual_sum x residual ;;
  x_fwd <- norm_f (RCPSAddNormWrapper.cast to_dtype s) ;;
  x_rc <- norm_f (RCPSAddNormWrapper.cast to_dtype (Torch.flip s)) ;;
  x' <- Torch.cat_last x_fwd (Torch.flip x_rc) ;;
  Some (x', map (map (fun r => r ++ r)) s).

End Readings.

End Spec.

(** * Facts about the tensor primitives *)

Section MonadFacts.
Context {A B C D : Type}.

Lemma mapM_map (g : A -> B) (f : B -> option C) (l : list A) :
  Torch.mapM f (map g l) = Torch.mapM (fun a => f (g a)) l.
Proof.
  induction l as [|a l IH]; simpl; [reflexivity|].
  now rewrite IH.
Qed.

Lemma mapM_ext_in (f g : A -> option B) (l : list A) :
  (forall a, In a l -> f a = g a) -> Torch.mapM f l = Torch.mapM g l.
Proof.
  induction l as [|a l IH]; simpl; intros Hfg; [reflexivity|].
  rewrite (Hfg a) by now left.
  rewrite IH by (intros; apply Hfg; now right).
  reflexivity.
Qed.

Lemma mapM_total (f : A -> option B) (g : A -> B) (l : list A) :
  (forall a, In a l -> f a = Some (g a)) -> Torch.mapM f l = Some (map g l).
Proof.
  induction l as [|a l IH]; simpl; intros Hfg; [reflexivity|].
  rewrite (Hfg a) by now left.
  rewrite IH by (intros; apply Hfg; now right).
  reflexivity.
Qed.

Lemma mapM_app (f : A -> option B) (l1 l2 : list A) :
  Torch.mapM f (l1 ++ l2) =
  (a <- Torch.mapM f l1 ;; b <- Torch.mapM f l2 ;; Some (a ++ b)).
Proof.
  induction l1 as [|a l1 IH]; simpl.
  - now destruct (Torch.mapM f l2).
  - destruct (f a); [|reflexivity].
    rewrite IH.
    destruct (Torch.mapM f l1); [|reflexivity].
    now destruct (Torch.mapM f l2).
Qed.

Lemma mapM_rev (f : A -> option B) (l : list A) :
  Torch.mapM f (rev l) = option_map (@rev B) (Torch.mapM f l).
Proof.
  induction l as [|a l IH]; simpl; [reflexivity|].
  rewrite mapM_app, IH. simpl.
  destruct (Torch.mapM f l); simpl; now destruct (f a).
Qed.

Lemma mapM_option_map (f : A -> option B) (g : B -> C) (l : list A) :
  option_map (map g) (Torch.mapM f l) =
  Torch.mapM (fun a => option_map g (f a)) l.
Proof.
  induction l as [|a l IH]; simpl; [reflexivity|].
  rewrite <- IH.
  destruct (f a); simpl; [|reflexivity].
  now destruct (Torch.mapM f l).
Qed.

Lemma mapM_length (f : A -> option B) (l : list A) (r : list B) :
  Torch.mapM f l = Some r -> length r = length l.
Proof.
  revert r; induction l as [|a l IH]; simpl; intros r Hr.
  - now inversion Hr.
  - destruct (f a); [|discriminate].
    destruct (Torch.mapM f l) as [r'|]; [|discriminate].
    inversion Hr; subst. simpl. now rewrite (IH r' eq_refl).
Qed.

Lemma zipM_length_neq (f : A -> B -> option C) (l1 : list A) (l2 : list B) :
  length l1 <> length l2 -> Torch.zipM f l1 l2 = None.
Proof.
  revert l2; induction l1 as [|a l1 IH]; intros [|b l2] Hlen; simpl in *;
    try reflexivity; try congruence.
  rewrite IH by congruence.
  now destruct (f a b).
Qed.

Lemma zipM_app (f : A -> B -> option C) (l1 l2 : list A) (k1 k2 : list B) :
  length l1 = length k1 ->
  Torch.zipM f (l1 ++ l2) (k1 ++ k2) =
  (a <- Torch.zipM f l1 k1 ;; b <- Torch.zipM f l2 k2 ;; Some (a ++ b)).
Proof.
  revert k1; induction l1 as [|a l1 IH]; intros [|b k1] Hlen; simpl in *;
    try discriminate.
  - now destruct (Torch.zipM f l2 k2).
  - destruct (f a b); [|reflexivity].
    rewrite IH by congruence.
    destruct (Torch.zipM f l1 k1); [|reflexivity].
    now destruct (Torch.zipM f l2 k2).
Qed.

Lemma zipM_rev (f : A -> B -> option C) (l1 : list A) (l2 : list B) :
  Torch.zipM f (rev l1) (rev l2) = option_map (@rev C) (Torch.zipM f l1 l2).
Proof.
  destruct (Nat.eq_dec (length l1) (length l2)) as [Hlen|Hlen].
  - revert l2 Hlen; induction l1 as [|a l1 IH]; intros [|b l2] Hlen;
      simpl in *; try discriminate; [reflexivity|].
    rewrite zipM_app by (rewrite !length_rev; congruence).
    rewrite IH by congruence. simpl.
    destruct (Torch.zipM f l1 l2); simpl; now destruct (f a b).
  - rewrite !zipM_length_neq; [reflexivity|assumption|].
    now rewrite !length_rev.
Qed.

Lemma zipM_map (g : A -> C) (h : B -> D) (E : Type) (f : C -> D -> option E)
  (l1 : list A) (l2 : list B) :
  Torch.zipM f (map g l1) (map h l2) =
  Torch.zipM (fun a b => f (g a) (h b)) l1 l2.
Proof.
  revert l2; induction l1 as [|a l1 IH]; intros [|b l2]; simpl;
    try reflexivity.
  now rewrite IH.
Qed.

Lemma zipM_swap (f : A -> B -> option C) (l1 : list A) (l2 : list B) :
  Torch.zipM f l1 l2 = Torch.zipM (fun b a => f a b) l2 l1.
Proof.
  revert l2; induction l1 as [|a l1 IH]; intros [|b l2]; simpl;
    try reflexivity.
  now rewrite IH.
Qed.

Lemma zipM_ext (f g : A -> B -> option C) (l1 : list A) (l2 : list B) :
  (forall a b, f a b = g a b) -> Torch.zipM f l1 l2 = Torch.zipM g l1 l2.
Proof.
  intros Hfg; revert l2; induction l1 as [|a l1 IH]; intros [|b l2]; simpl;
    try reflexivity.
  now rewrite Hfg, IH.
Qed.

Lemma zipM_option_map (f : A -> B -> option C) (g : C -> D)
  (l1 : list A) (l2 : list B) :
  option_map (map g) (Torch.zipM f l1 l2) =
  Torch.zipM (fun a b => option_map g (f a b)) l1 l2.
Proof.
  revert l2; induction l1 as [|a l1 IH]; intros [|b l2]; simpl;
    try reflexivity.
  rewrite <- IH.
  destruct (f a b); simpl; [|reflexivity].
  now destruct (Torch.zipM f l1 l2).
Qed.

Lemma zipM_total (f : A -> B -> option C) (g : A -> B -> C)
  (l1 : list A) (l2 : list B) :
  length l1 = length l2 ->
  (forall a b, In (a, b) (combine l1 l2) -> f a b = Some (g a b)) ->
  Torch.zipM f l1 l2 = Some (map (fun p => g (fst p) (snd p)) (combine l1 l2)).
Proof.
  revert l2; induction l1 as [|a l1 IH]; intros [|b l2] Hlen Hfg;
    simpl in *; try discriminate; [reflexivity|].
  rewrite Hfg by now left.
  rewrite IH; [reflexivity|congruence|].
  intros; apply Hfg; now right.
Qed.

End MonadFacts.

Section FlipFacts.
Context {R : Type}.

Lemma flip_involutive (x : Tensor3 R) : Torch.flip (Torch.flip x) = x.
Proof.
  unfold Torch.flip, Torch.flip_matrix. rewrite map_map.
  rewrite <- (map_id x) at 2.
  apply map_ext; intros m.
  rewrite map_rev, rev_involutive, map_map.
  rewrite <- (map_id m) at 2.
  apply map_ext; intros r. apply rev_involutive.
Qed.

Lemma flip_last2_involutive (x : Tensor2 R) :
  Torch.flip_last2 (Torch.flip_last2 x) = x.
Proof.
  unfold Torch.flip_last2. rewrite map_map.
  rewrite <- (map_id x) at 2.
  apply map_ext; intros r. apply rev_involutive.
Qed.

Lemma flip_as_map : @Torch.flip R = map (@Torch.flip_matrix R).
Proof. reflexivity. Qed.

(** Flipping a channel concatenation swaps the two operands. *)
Lemma flip_cat_last (x y : Tensor3 R) :
  option_map Torch.flip (Torch.cat_last x y) =
  Torch.cat_last (Torch.flip y) (Torch.flip x).
Proof.
  rewrite flip_as_map. unfold Torch.cat_last.
  rewrite zipM_option_map, zipM_map, (zipM_swap _ y x).
  apply zipM_ext; intros a b. unfold Torch.flip_matrix.
  rewrite zipM_rev, zipM_map, (zipM_swap _ b a).
  rewrite (zipM_ext (fun r s => Some (rev s ++ rev r))
             (fun r s => option_map (@rev R) (Some (r ++ s))))
    by (intros; simpl; now rewrite rev_app_distr).
  rewrite <- zipM_option_map.
  now destruct (Torch.zipM _ a b).
Qed.

End FlipFacts.

Section ArithFacts.
Context {R : Type} `{Scalar R}.

Lemma zipM_diag {A B : Type} (f : A -> A -> option B) (l : list A) :
  Torch.zipM f l l = Torch.mapM (fun a => f a a) l.
Proof.
  induction l as [|a l IH]; simpl; [reflexivity|].
  now rewrite IH.
Qed.

(** Elementwise addition commutes with the flip. *)
Lemma flip_add (x y : Tensor3 R) :
  option_map Torch.flip (Torch.add x y) =
  Torch.add (Torch.flip x) (Torch.flip y).
Proof.
  rewrite flip_as_map. unfold Torch.add.
  rewrite zipM_option_map, zipM_map.
  apply zipM_ext; intros a b. unfold Torch.flip_matrix.
  rewrite zipM_rev, zipM_map.
  rewrite (zipM_ext (fun r s => Torch.add_row (rev r) (rev s))
             (fun r s => option_map (@rev R) (Torch.add_row r s)))
    by (intros; unfold Torch.add_row; now rewrite zipM_rev).
  rewrite <- zipM_option_map.
  now destruct (Torch.zipM _ a b).
Qed.

End ArithFacts.

(** * RCPSWrapper *)

(** C2. Running the wrapper on the flipped input (length and channel axes
    flipped) gives the flip of what it gives on the input itself, whatever
    the wrapped submodule is: the same holds in particular for a submodule
    that is pointwise in channel and shift-invariant in length.  When the
    submodule raises on either strand, both sides raise. *)
Theorem RCPSWrapper_forward_equivariant {R : Type}
  (submodule : Tensor3 R -> option (Tensor3 R)) (x : Tensor3 R) :
  RCPSWrapper.forward submodule (RCPSWrapper.rc x) =
  option_map RCPSWrapper.rc (RCPSWrapper.forward submodule x).
Proof.
  unfold RCPSWrapper.forward, RCPSWrapper.rc.
  rewrite flip_involutive.
  destruct (submodule x) as [fwd|], (submodule (Torch.flip x)) as [rv|];
    simpl; try reflexivity.
  now rewrite flip_cat_last, flip_involutive.
Qed.

(** The wrapper around the identity, on one batch of two positions and two
    channels: four channels out, and the flip of the input gives the flip
    of the output. *)
Example RCPSWrapper_forward_run :
  RCPSWrapper.forward (fun t => Some t) [[[1; 2]; [3; 4]]]%Z =
    Some [[[1; 2; 1; 2]; [3; 4; 3; 4]]]%Z /\
  RCPSWrapper.forward (fun t => Some t) (RCPSWrapper.rc [[[1; 2]; [3; 4]]]%Z) =
    Some [[[4; 3; 4; 3]; [2; 1; 2; 1]]]%Z.
Proof. split; reflexivity. Qed.

(** * RCPSEmbedding *)

Section ComplementFacts.
Variable vocab_size : Z.
Variable cmap : list Z.
Hypothesis cmap_involutive : Spec.involutive_on vocab_size cmap.

Local Abbreviation comp := (Spec.complement_or_zero cmap).

Lemma index_comp (i : Z) :
  (0 <= i < vocab_size)%Z -> Torch.index cmap i = Some (comp i).
Proof.
  intros Hi. specialize (cmap_involutive Hi).
  unfold Spec.complement_or_zero.
  now destruct (Torch.index cmap i).
Qed.

Lemma index_comp_comp (i : Z) :
  (0 <= i < vocab_size)%Z -> Torch.index cmap (comp i) = Some i.
Proof.
  intros Hi. generalize (cmap_involutive Hi).
  now rewrite (index_comp Hi).
Qed.

Lemma complement_row_twice (row : list Z) :
  Forall (fun i => (0 <= i < vocab_size)%Z) row ->
  Torch.mapM (Torch.index cmap) (rev row) = Some (rev (map comp row)) /\
  Torch.mapM (Torch.index cmap) (rev (rev (map comp row))) = Some row.
Proof.
  intros Hrow. rewrite Forall_forall in Hrow. split.
  - rewrite mapM_rev.
    rewrite (mapM_total (Torch.index cmap) comp)
      by (intros; apply index_comp; auto).
    reflexivity.
  - rewrite rev_involutive, mapM_map.
    rewrite (mapM_total (fun a => Torch.index cmap (comp a)) (fun a => a))
      by (intros; apply index_comp_comp; auto).
    now rewrite map_id.
Qed.

Lemma rc_twice (s : Tensor2 Z) :
  Spec.ids_in_range vocab_size s ->
  exists s', RCPSEmbedding.rc cmap s = Some s' /\
             RCPSEmbedding.rc cmap s' = Some s.
Proof.
  unfold Spec.ids_in_range, RCPSEmbedding.rc, RCPSEmbedding.vmap_complement,
    Torch.flip_last2.
  intros Hs. exists (map (fun row => rev (map comp row)) s).
  rewrite Forall_forall in Hs. split.
  - rewrite mapM_map.
    apply mapM_total; intros row Hrow.
    now apply complement_row_twice, Hs.
  - rewrite !mapM_map.
    rewrite (mapM_total _ (fun row : list Z => row)); [now rewrite map_id|].
    intros row Hrow. now apply complement_row_twice, Hs.
Qed.

End ComplementFacts.

(** When the complement buffer is an involution on the vocabulary (looking
    an id up twice gives it back), reverse-complementing a batch of
    vocabulary ids twice succeeds and returns the batch unchanged. *)
Theorem RCPSEmbedding_rc_involutive (vocab_size : Z) (cmap : list Z)
  (s : Tensor2 Z) :
  Spec.involutive_on vocab_size cmap ->
  Spec.ids_in_range vocab_size s ->
  (s' <- RCPSEmbedding.rc cmap s ;; RCPSEmbedding.rc cmap s') = Some s.
Proof.
  intros Hinv Hs.
  destruct (rc_twice Hinv Hs) as (s' & H1 & H2).
  now rewrite H1.
Qed.

(** The DNA buffer of the description: A<->T, C<->G as {0:1, 1:0, 2:3, 3:2}. *)
Lemma dna_involutive :
  Spec.involutive_on 4
    (RCPSEmbedding.complement_buffer
       [(0, 1); (1, 0); (2, 3); (3, 2)]%Z).
Proof.
  intros i Hi.
  assert (i = 0 \/ i = 1 \/ i = 2 \/ i = 3)%Z as Hcases by lia.
  destruct Hcases as [->|[->|[->| ->]]]; reflexivity.
Qed.

Lemma RCPSEmbedding_rc_involutive_witness :
  (s' <- RCPSEmbedding.rc
           (RCPSEmbedding.complement_buffer [(0, 1); (1, 0); (2, 3); (3, 2)]%Z)
           [[0; 2; 2; 1; 3]; [3; 3; 0; 1; 2]]%Z ;;
   RCPSEmbedding.rc
     (RCPSEmbedding.complement_buffer [(0, 1); (1, 0); (2, 3); (3, 2)]%Z) s')
  = Some [[0; 2; 2; 1; 3]; [3; 3; 0; 1; 2]]%Z.
Proof.
  apply (@RCPSEmbedding_rc_involutive 4).
  - exact dna_involutive.
  - repeat constructor; lia.
Defined.

(** For every batch of vocabulary ids, every embedding table and every
    projection, provided the complement buffer is an involution on the
    vocabulary: the forward pass on the reverse complement of the batch is
    the flip (length and channel axes, which swaps and mirrors the two
    channel halves) of the forward pass on the batch. *)
Theorem RCPSEmbedding_forward_equivariant {R : Type} `{Scalar R}
  (weight proj_weight : Tensor2 R) (proj_bias : option (list R))
  (vocab_size : Z) (cmap : list Z) (s : Tensor2 Z) :
  Spec.involutive_on vocab_size cmap ->
  Spec.ids_in_range vocab_size s ->
  exists s',
    RCPSEmbedding.rc cmap s = Some s' /\
    RCPSEmbedding.forward weight proj_weight proj_bias cmap s' =
    option_map Torch.flip
      (RCPSEmbedding.forward weight proj_weight proj_bias cmap s).
Proof.
  intros Hinv Hs.
  destruct (rc_twice Hinv Hs) as (s' & H1 & H2).
  exists s'; split; [assumption|].
  unfold RCPSEmbedding.forward. rewrite H1, H2.
  destruct (Torch.embedding s weight) as [e|];
    [destruct (Torch.linear e proj_weight proj_bias) as [fwd|]|];
    (destruct (Torch.embedding s' weight) as [e'|];
     [destruct (Torch.linear e' proj_weight proj_bias) as [rv|]|]);
    simpl; try reflexivity.
  now rewrite flip_cat_last, flip_involutive.
Qed.

Lemma RCPSEmbedding_forward_equivariant_witness :
  exists s',
    RCPSEmbedding.rc
      (RCPSEmbedding.complement_buffer [(0, 1); (1, 0); (2, 3); (3, 2)]%Z)
      [[0; 2; 2; 1; 3]]%Z = Some s' /\
    RCPSEmbedding.forward
      [[1; 0]; [0; 1]; [2; 5]; [7; 3]]%Z [[1; 2]]%Z (Some [4]%Z)
      (RCPSEmbedding.complement_buffer [(0, 1); (1, 0); (2, 3); (3, 2)]%Z) s' =
    option_map Torch.flip
      (RCPSEmbedding.forward
         [[1; 0]; [0; 1]; [2; 5]; [7; 3]]%Z [[1; 2]]%Z (Some [4]%Z)
         (RCPSEmbedding.complement_buffer [(0, 1); (1, 0); (2, 3); (3, 2)]%Z)
         [[0; 2; 2; 1; 3]]%Z).
Proof.
  apply (@RCPSEmbedding_forward_equivariant Z Z_Scalar _ _ _ 4%Z).
  - exact dna_involutive.
  - repeat constructor; lia.
Defined.

(** A concrete run: on ids [0;2;2;1;3] the forward pass returns
    five rows of two channels. *)
Example RCPSEmbedding_forward_run :
  RCPSEmbedding.forward
    [[1; 0]; [0; 1]; [2; 5]; [7; 3]]%Z [[1; 2]]%Z (Some [4]%Z)
    (RCPSEmbedding.complement_buffer [(0, 1); (1, 0); (2, 3); (3, 2)]%Z)
    [[0; 2; 2; 1; 3]]%Z
  = Some [[[5; 6]; [16; 17]; [16; 17]; [6; 5]; [17; 16]]]%Z.
Proof. reflexivity. Qed.

(** A buffer that is not an involution breaks the relation: with the
    mapping {0:1, 1:1} the reverse complement of [0] is [1], and the forward
    pass on [1] is not the flip of the forward pass on [0]. *)
Lemma RCPSEmbedding_forward_not_equivariant :
  let cmap := RCPSEmbedding.complement_buffer [(0, 1); (1, 1)]%Z in
  let forward :=
    RCPSEmbedding.forward [[1; 0]; [0; 1]]%Z [[1; 0]]%Z (Some [0]%Z) cmap in
  Spec.ids_in_range 2 [[0]]%Z /\
  RCPSEmbedding.rc cmap [[0]]%Z = Some [[1]]%Z /\
  forward [[0]]%Z = Some [[[1; 0]]]%Z /\
  forward [[1]]%Z = Some [[[0; 0]]]%Z /\
  forward [[1]]%Z <> option_map Torch.flip (forward [[0]]%Z).
Proof.
  cbv zeta. repeat split.
  - repeat constructor; lia.
  - discriminate.
Qed.

(** ** A dict whose keys are not in id order

    The dict {0:1, 2:2, 1:0} maps each id to its complement and is an
    involution; its keys are not in the order 0, 1, 2. *)

Lemma unordered_dict_involution :
  OrderedDict.is_dict [(0, 1); (2, 2); (1, 0)]%Z /\
  forall k, In k (OrderedDict.keys [(0, 1); (2, 2); (1, 0)]%Z) ->
    (j <- OrderedDict.getitem [(0, 1); (2, 2); (1, 0)]%Z k ;;
     OrderedDict.getitem [(0, 1); (2, 2); (1, 0)]%Z j) = Some k.
Proof.
  split.
  - unfold OrderedDict.is_dict. simpl.
    repeat constructor; simpl; intuition discriminate.
  - simpl. intros k [<-|[<-|[<-|[]]]]; reflexivity.
Qed.

(** C1. On the involutive dict {0:1, 2:2, 1:0} the constructor succeeds and
    registers the buffer [1; 2; 0], the values in iteration order.  The
    reverse complement of the batch [[0]] is then [[1]], the forward pass
    returns [1; 2] on [[0]] and [2; 3] on [[1]], and [2; 3] is not the flip
    [2; 1] of [1; 2]: the embedding is not equivariant on this input. *)
Theorem RCPSEmbedding_forward_key_order :
  raises (RCPSEmbedding.init 3 2 [(0, 1); (2, 2); (1, 0)]%Z) = false /\
  RCPSEmbedding.complement_buffer [(0, 1); (2, 2); (1, 0)]%Z = [1; 2; 0]%Z /\
  RCPSEmbedding.rc
    (RCPSEmbedding.complement_buffer [(0, 1); (2, 2); (1, 0)]%Z) [[0]]%Z =
    Some [[1]]%Z /\
  RCPSEmbedding.forward [[1; 0]; [2; 0]; [3; 0]]%Z [[1; 0]]%Z (Some [0]%Z)
    (RCPSEmbedding.complement_buffer [(0, 1); (2, 2); (1, 0)]%Z) [[0]]%Z =
    Some [[[1; 2]]]%Z /\
  RCPSEmbedding.forward [[1; 0]; [2; 0]; [3; 0]]%Z [[1; 0]]%Z (Some [0]%Z)
    (RCPSEmbedding.complement_buffer [(0, 1); (2, 2); (1, 0)]%Z) [[1]]%Z =
    Some [[[2; 3]]]%Z /\
  RCPSEmbedding.forward [[1; 0]; [2; 0]; [3; 0]]%Z [[1; 0]]%Z (Some [0]%Z)
    (RCPSEmbedding.complement_buffer [(0, 1); (2, 2); (1, 0)]%Z) [[1]]%Z <>
  option_map Torch.flip
    (RCPSEmbedding.forward [[1; 0]; [2; 0]; [3; 0]]%Z [[1; 0]]%Z (Some [0]%Z)
       (RCPSEmbedding.complement_buffer [(0, 1); (2, 2); (1, 0)]%Z) [[0]]%Z).
Proof.
  repeat split. discriminate.
Qed.

(** C3. On the involutive dict {0:1, 2:2, 1:0} the registered buffer is
    [1; 2; 0], and reverse-complementing the batch [[0]] twice returns
    [[2]], not [[0]]. *)
Theorem RCPSEmbedding_rc_twice_key_order :
  RCPSEmbedding.complement_buffer [(0, 1); (2, 2); (1, 0)]%Z = [1; 2; 0]%Z /\
  RCPSEmbedding.rc
    (RCPSEmbedding.complement_buffer [(0, 1); (2, 2); (1, 0)]%Z) [[0]]%Z =
    Some [[1]]%Z /\
  (s' <- RCPSEmbedding.rc
           (RCPSEmbedding.complement_buffer [(0, 1); (2, 2); (1, 0)]%Z)
           [[0]]%Z ;;
   RCPSEmbedding.rc
     (RCPSEmbedding.complement_buffer [(0, 1); (2, 2); (1, 0)]%Z) s') =
    Some [[2]]%Z /\
  (s' <- RCPSEmbedding.rc
           (RCPSEmbedding.complement_buffer [(0, 1); (2, 2); (1, 0)]%Z)
           [[0]]%Z ;;
   RCPSEmbedding.rc
     (RCPSEmbedding.complement_buffer [(0, 1); (2, 2); (1, 0)]%Z) s') <>
    Some [[0]]%Z.
Proof.
  repeat split. discriminate.
Qed.

(** * Shapes *)

Section ShapeFacts.
Context {R : Type}.

Lemma has_shape_In (b l c : nat) (x : Tensor3 R) :
  Torch.has_shape b l c x = true <->
  length x = b /\
  forall m, In m x -> length m = l /\ forall r, In r m -> length r = c.
Proof.
  unfold Torch.has_shape.
  rewrite andb_true_iff, Nat.eqb_eq, forallb_forall.
  split; intros [Hb Hx]; (split; [assumption|]); intros m Hm.
  - specialize (Hx m Hm).
    rewrite andb_true_iff, Nat.eqb_eq, forallb_forall in Hx.
    destruct Hx as [Hl Hr]; split; [assumption|].
    intros r Hin. now apply Nat.eqb_eq, Hr.
  - destruct (Hx m Hm) as [Hl Hr].
    rewrite andb_true_iff, Nat.eqb_eq, forallb_forall; split; [assumption|].
    intros r Hin. now apply Nat.eqb_eq, Hr.
Qed.

Lemma has_shape2_In (rows cols : nat) (w : Tensor2 R) :
  Torch.has_shape2 rows cols w = true <->
  length w = rows /\ forall r, In r w -> length r = cols.
Proof.
  unfold Torch.has_shape2.
  rewrite andb_true_iff, Nat.eqb_eq, forallb_forall.
  split; intros [Hb Hx]; (split; [assumption|]); intros r Hr.
  - now apply Nat.eqb_eq, Hx.
  - now apply Nat.eqb_eq, Hx.
Qed.

(** The flip keeps the shape. *)
Lemma flip_has_shape (b l c : nat) (x : Tensor3 R) :
  Torch.has_shape b l c x = true -> Torch.has_shape b l c (Torch.flip x) = true.
Proof.
  rewrite !has_shape_In. intros [Hb Hx]. unfold Torch.flip. split.
  - now rewrite length_map.
  - intros m Hm. apply in_map_iff in Hm as (m0 & <- & Hm0).
    destruct (Hx m0 Hm0) as [Hl Hr]. unfold Torch.flip_matrix. split.
    + now rewrite length_rev, length_map.
    + intros r Hin. apply in_rev in Hin.
      apply in_map_iff in Hin as (r0 & <- & Hr0).
      rewrite length_rev. now apply Hr.
Qed.

(** Slicing at half of [x.shape[-1]] is slicing at half the channel count:
    a tensor with a row has rows of [shape_last] entries, and a tensor
    without rows has nothing to slice. *)
Lemma slice_at_shape_last {T : Type} (f : nat -> list R -> T)
  (b l c : nat) (x : Tensor3 R) :
  Torch.has_shape b l c x = true ->
  map (map (f (Torch.shape_last x / 2))) x = map (map (f (c / 2))) x.
Proof.
  rewrite has_shape_In. intros [Hb Hx].
  destruct x as [|[|r0 m0] x']; [reflexivity| |].
  - apply map_ext_in; intros m Hm.
    destruct (Hx m Hm) as [Hl _].
    destruct (Hx [] (or_introl eq_refl)) as [Hl0 _].
    simpl in Hl0; subst l.
    now destruct m.
  - destruct (Hx (r0 :: m0) (or_introl eq_refl)) as [_ Hr].
    simpl Torch.shape_last.
    now rewrite (Hr r0 (or_introl eq_refl)).
Qed.

(** On a row of [2d] channels, the first half of the reversed row is the
    reversed second half, and conversely. *)
Lemma firstn_rev_half (d : nat) (r : list R) :
  length r = 2 * d -> firstn d (rev r) = rev (skipn d r).
Proof.
  intros Hlen. rewrite firstn_rev. do 2 f_equal. lia.
Qed.

Lemma skipn_rev_half (d : nat) (r : list R) :
  length r = 2 * d -> skipn d (rev r) = rev (firstn d r).
Proof.
  intros Hlen. rewrite skipn_rev. do 2 f_equal. lia.
Qed.

End ShapeFacts.

Section FuseFacts.
Context {A B C C' D : Type}.

(** Two passes over one list followed by a pairing are one pass. *)
Lemma mapM_fuse (f : A -> option B) (g : A -> option C) (k : C -> C')
  (h : B -> C' -> option D) (l : list A) :
  (u <- Torch.mapM f l ;; v <- Torch.mapM g l ;; Torch.zipM h u (map k v)) =
  Torch.mapM (fun a => u <- f a ;; v <- g a ;; h u (k v)) l.
Proof.
  induction l as [|a l IH]; simpl; [reflexivity|].
  rewrite <- IH.
  destruct (f a) as [u|]; [|reflexivity].
  destruct (g a) as [v|].
  - destruct (Torch.mapM f l) as [us|]; [|now destruct (h u (k v))].
    destruct (Torch.mapM g l) as [vs|]; [|now destruct (h u (k v))].
    simpl. reflexivity.
  - now destruct (Torch.mapM f l).
Qed.

Lemma mapM_ext (f g : A -> option B) (l : list A) :
  (forall a, f a = g a) -> Torch.mapM f l = Torch.mapM g l.
Proof. intros Hfg. apply mapM_ext_in. auto. Qed.

End FuseFacts.

Section NestedFacts.
Context {A B C : Type}.

Lemma mapM_map2 (g : A -> B) (f : B -> option C) (x : list (list A)) :
  Torch.mapM (Torch.mapM f) (map (map g) x) =
  Torch.mapM (Torch.mapM (fun a => f (g a))) x.
Proof.
  rewrite mapM_map. apply mapM_ext; intros m. apply mapM_map.
Qed.

Lemma map_map2 (g : A -> B) (f : B -> C) (x : list (list A)) :
  map (map f) (map (map g) x) = map (map (fun a => f (g a))) x.
Proof.
  rewrite map_map. apply map_ext; intros m. apply map_map.
Qed.

End NestedFacts.

(** * RCPSLMHead *)

Section LMHeadFacts.
Context {R : Type} `{Scalar R}.
Variable weight : Tensor2 R.

(** The forward pass works row by row. *)
Lemma RCPSLMHead_forward_rowwise (b l c : nat) (x : Tensor3 R) :
  Torch.has_shape b l c x = true ->
  RCPSLMHead.forward weight x =
  Torch.mapM (Torch.mapM (RCPSLMHead.forward_row weight (c / 2))) x.
Proof.
  intros Hx. unfold RCPSLMHead.forward. cbv zeta.
  unfold Torch.slice_to, Torch.slice_from, Torch.flip_last, Torch.linear,
    Torch.add.
  rewrite (@slice_at_shape_last R _ (@firstn R) b l c x Hx).
  rewrite (@slice_at_shape_last R _ (@skipn R) b l c x Hx).
  rewrite map_map2, !mapM_map2.
  rewrite (mapM_fuse _ _ (map (@rev R)) (Torch.zipM Torch.add_row)).
  apply mapM_ext; intros m.
  apply (mapM_fuse _ _ (@rev R) Torch.add_row).
Qed.

Lemma weight_accepts_row (v d : nat) (r : list R) :
  Torch.has_shape2 v d weight = true -> length r = d ->
  forallb (fun w => length w =? length r) weight = true.
Proof.
  rewrite has_shape2_In. intros [_ Hw] Hr.
  apply forallb_forall; intros w Hin.
  apply Nat.eqb_eq. rewrite Hr. now apply Hw.
Qed.

(** On a row of [2d] channels and a weight of width [d] the row form
    succeeds with the logits of the description. *)
Lemma RCPSLMHead_forward_row_spec (v d : nat) (r : list R) :
  Torch.has_shape2 v d weight = true -> length r = 2 * d ->
  RCPSLMHead.forward_row weight d r = Some (Spec.lm_head_row d weight r).
Proof.
  intros Hw Hr. unfold RCPSLMHead.forward_row, Torch.linear_row.
  rewrite (@weight_accepts_row v d (firstn d r) Hw)
    by (rewrite length_firstn; lia).
  rewrite (@weight_accepts_row v d (rev (skipn d r)) Hw)
    by (rewrite length_rev, length_skipn; lia).
  unfold Torch.add_row, Spec.lm_head_row.
  apply zipM_total; [|reflexivity].
  now rewrite length_rev, !length_map.
Qed.

Hypothesis sadd_comm : forall a b : R, sadd a b = sadd b a.

Lemma add_row_comm (a b : list R) : Torch.add_row a b = Torch.add_row b a.
Proof.
  unfold Torch.add_row. rewrite zipM_swap.
  apply zipM_ext; intros u v. now rewrite sadd_comm.
Qed.

(** Reversing a row of [2d] channels reverses its logits. *)
Lemma RCPSLMHead_forward_row_rev (d : nat) (r : list R) :
  length r = 2 * d ->
  RCPSLMHead.forward_row weight d (rev r) =
  option_map (@rev R) (RCPSLMHead.forward_row weight d r).
Proof.
  intros Hr. unfold RCPSLMHead.forward_row.
  rewrite (@firstn_rev_half R d r Hr), (@skipn_rev_half R d r Hr), rev_involutive.
  destruct (Torch.linear_row weight None (firstn d r)) as [f|],
    (Torch.linear_row weight None (rev (skipn d r))) as [g|];
    simpl; try reflexivity.
  rewrite add_row_comm. unfold Torch.add_row.
  now rewrite <- zipM_rev, rev_involutive.
Qed.

End LMHeadFacts.

(** C5. For a hidden tensor of shape (batch, length, 2 * true_dim) and any
    head weight, the head applied to the flip of the tensor (length and
    channel axes) gives the flip (length and vocabulary axes) of the logits
    of the tensor.  Scalar addition is commutative, as it is on floats. *)
Theorem RCPSLMHead_forward_equivariant {R : Type} `{Scalar R}
  (weight : Tensor2 R) (b l true_dim : nat) (x : Tensor3 R) :
  (forall u v : R, sadd u v = sadd v u) ->
  Torch.has_shape b l (2 * true_dim) x = true ->
  RCPSLMHead.forward weight (Torch.flip x) =
  option_map Torch.flip (RCPSLMHead.forward weight x).
Proof.
  intros Hcomm Hx.
  rewrite (@RCPSLMHead_forward_rowwise R _ weight b l (2 * true_dim)
             (Torch.flip x)) by now apply flip_has_shape.
  rewrite (@RCPSLMHead_forward_rowwise R _ weight b l (2 * true_dim) x Hx).
  replace (2 * true_dim / 2) with true_dim
    by (now rewrite Nat.mul_comm, Nat.div_mul).
  rewrite flip_as_map, mapM_map, mapM_option_map.
  apply has_shape_In in Hx as [_ Hx].
  apply mapM_ext_in; intros m Hm. unfold Torch.flip_matrix.
  rewrite mapM_rev, mapM_map.
  rewrite (mapM_ext_in _
             (fun r => option_map (@rev R)
                         (RCPSLMHead.forward_row weight true_dim r))).
  - rewrite <- mapM_option_map.
    now destruct (Torch.mapM (RCPSLMHead.forward_row weight true_dim) m).
  - intros r Hin. apply RCPSLMHead_forward_row_rev; [assumption|].
    now apply (Hx m Hm).
Qed.

Lemma RCPSLMHead_forward_equivariant_witness :
  RCPSLMHead.forward [[1; 2]; [3; 4]; [5; 6]]%Z
    (Torch.flip [[[1; 2; 3; 4]; [5; 6; 7; 8]]]%Z) =
  option_map Torch.flip
    (RCPSLMHead.forward [[1; 2]; [3; 4]; [5; 6]]%Z
       [[[1; 2; 3; 4]; [5; 6; 7; 8]]]%Z).
Proof.
  apply (@RCPSLMHead_forward_equivariant Z Z_Scalar _ 1 2 2).
  - intros u v. simpl. lia.
  - reflexivity.
Defined.

(** C7. For a hidden tensor of shape (batch, length, 2 * true_dim) and a
    head weight of shape (vocab, true_dim), the forward pass returns, row by
    row, the sum of the linear map on the first channel half and the
    vocabulary flip of the same linear map on the channel flip of the second
    channel half. *)
Theorem RCPSLMHead_forward_spec {R : Type} `{Scalar R}
  (weight : Tensor2 R) (b l vocab true_dim : nat) (x : Tensor3 R) :
  Torch.has_shape b l (2 * true_dim) x = true ->
  Torch.has_shape2 vocab true_dim weight = true ->
  RCPSLMHead.forward weight x = Some (Spec.lm_head true_dim weight x).
Proof.
  intros Hx Hw.
  rewrite (@RCPSLMHead_forward_rowwise R _ weight b l (2 * true_dim) x Hx).
  replace (2 * true_dim / 2) with true_dim
    by (now rewrite Nat.mul_comm, Nat.div_mul).
  apply has_shape_In in Hx as [_ Hx].
  apply mapM_total; intros m Hm.
  apply mapM_total; intros r Hr.
  apply (@RCPSLMHead_forward_row_spec R _ weight vocab true_dim r Hw).
  now apply (Hx m Hm).
Qed.

Lemma RCPSLMHead_forward_spec_witness :
  RCPSLMHead.forward [[1; 2]; [3; 4]; [5; 6]]%Z
    [[[1; 2; 3; 4]; [5; 6; 7; 8]]]%Z =
  Some (Spec.lm_head 2 [[1; 2]; [3; 4]; [5; 6]]%Z
          [[[1; 2; 3; 4]; [5; 6; 7; 8]]]%Z).
Proof.
  apply (@RCPSLMHead_forward_spec Z Z_Scalar _ 1 2 3 2); reflexivity.
Defined.

(** The logits of that concrete input. *)
Example RCPSLMHead_forward_run :
  RCPSLMHead.forward [[1; 2]; [3; 4]; [5; 6]]%Z
    [[[1; 2; 3; 4]; [5; 6; 7; 8]]]%Z =
  Some [[[43; 35; 27]; [99; 91; 83]]]%Z.
Proof. reflexivity. Qed.

(** * RCPSCollapse *)

Section DiagonalFacts.
Context {R : Type} `{Scalar R}.

(** Pairing a tensor with itself never fails. *)
Lemma cat_last_diag (s : Tensor3 R) :
  Torch.cat_last s s = Some (map (map (fun r => r ++ r)) s).
Proof.
  unfold Torch.cat_last. rewrite zipM_diag.
  apply mapM_total; intros m _. rewrite zipM_diag.
  now apply mapM_total.
Qed.

Lemma add_diag (s : Tensor3 R) :
  Torch.add s s = Some (map (map (map (fun u => sadd u u))) s).
Proof.
  unfold Torch.add. rewrite zipM_diag.
  apply mapM_total; intros m _. rewrite zipM_diag.
  apply mapM_total; intros r _. unfold Torch.add_row. rewrite zipM_diag.
  now apply mapM_total.
Qed.

(** The first channel half of the flip is the flip of the second half. *)
Lemma slice_to_flip (b l d : nat) (x : Tensor3 R) :
  Torch.has_shape b l (2 * d) x = true ->
  Torch.slice_to d (Torch.flip x) = Torch.flip (Torch.slice_from d x).
Proof.
  intros Hx. apply has_shape_In in Hx as [_ Hx].
  unfold Torch.slice_to, Torch.slice_from, Torch.flip. rewrite !map_map.
  apply map_ext_in; intros m Hm. unfold Torch.flip_matrix.
  rewrite !map_rev, !map_map. f_equal.
  apply map_ext_in; intros r Hr.
  apply firstn_rev_half. now apply (Hx m Hm).
Qed.

End DiagonalFacts.

(** An entry of a first channel slice is an entry of the row. *)
Lemma In_firstn {A : Type} (n : nat) (l : list A) (a : A) :
  In a (firstn n l) -> In a l.
Proof.
  intros Hin. rewrite <- (firstn_skipn n l). apply in_or_app. now left.
Qed.

(** C6 (amended). For a tensor of shape (batch, length, 2d) that is its own
    flip (length and channel axes) and whose entries all satisfy
    [(a + a) / 2 = a] (on floats: doubling the entry does not overflow),
    the collapse returns the first channel half of the tensor exactly, and
    this first half is the flip of the second channel half. *)
Theorem RCPSCollapse_forward_fixed_point {R : Type} `{Scalar R}
  (b l d : nat) (x : Tensor3 R) :
  Torch.has_shape b l (2 * d) x = true ->
  Torch.flip x = x ->
  Forall (Forall (Forall (fun a => shalf (sadd a a) = a))) x ->
  RCPSCollapse.forward x = Some (Torch.slice_to d x) /\
  Torch.slice_to d x = Torch.flip (Torch.slice_from d x).
Proof.
  intros Hx Hfix Hhalf.
  assert (Torch.slice_to d x = Torch.flip (Torch.slice_from d x)) as Hhalves.
  { rewrite <- Hfix at 1. now apply (@slice_to_flip R b l d x). }
  split; [|assumption].
  unfold RCPSCollapse.forward. cbv zeta.
  unfold Torch.slice_to at 1, Torch.slice_from.
  rewrite (@slice_at_shape_last R _ (@firstn R) b l (2 * d) x Hx).
  rewrite (@slice_at_shape_last R _ (@skipn R) b l (2 * d) x Hx).
  replace (2 * d / 2) with d by (now rewrite Nat.mul_comm, Nat.div_mul).
  fold (Torch.slice_to d x). fold (Torch.slice_from d x).
  rewrite <- Hhalves, add_diag.
  unfold Torch.halve, Torch.slice_to. f_equal.
  rewrite !map_map. apply map_ext_in; intros m Hm.
  rewrite !map_map. apply map_ext_in; intros r Hr.
  rewrite !map_map. rewrite <- (map_id (firstn d r)) at 2.
  apply map_ext_in; intros u Hu.
  rewrite Forall_forall in Hhalf. specialize (Hhalf m Hm).
  rewrite Forall_forall in Hhalf. specialize (Hhalf r Hr).
  rewrite Forall_forall in Hhalf. apply Hhalf.
  now apply In_firstn in Hu.
Qed.

Lemma RCPSCollapse_forward_fixed_point_witness :
  @RCPSCollapse.forward _ Float_Scalar
    [[[3; 4.5; 5; 6]; [1; 2; 2; 1]; [6; 5; 4.5; 3]]]%float =
  Some (Torch.slice_to 2
          [[[3; 4.5; 5; 6]; [1; 2; 2; 1]; [6; 5; 4.5; 3]]]%float) /\
  Torch.slice_to 2 [[[3; 4.5; 5; 6]; [1; 2; 2; 1]; [6; 5; 4.5; 3]]]%float =
  Torch.flip
    (Torch.slice_from 2
       [[[3; 4.5; 5; 6]; [1; 2; 2; 1]; [6; 5; 4.5; 3]]]%float).
Proof.
  apply (@RCPSCollapse_forward_fixed_point _ Float_Scalar 1 3 2).
  - reflexivity.
  - reflexivity.
  - repeat constructor.
Defined.

Section FloatFacts.

(** Two floats that a comparison tells apart are different. *)
Lemma float_neq (u v : PrimFloat.float) :
  PrimFloat.eqb u v = false -> PrimFloat.eqb u u = true -> u <> v.
Proof.
  intros Hneq Hrefl Heq. rewrite <- Heq in Hneq. congruence.
Qed.

End FloatFacts.

(** C6 as stated fails on both counts.  The float tensor [[1;2;2;1]] is its
    own flip and collapses to its first half [1;2], which is not its second
    half [2;1].  The float tensor [[max;1;1;max]] is its own flip too, but
    [max + max] overflows: it collapses to [[infinity;1]], which is not its
    first half. *)
Lemma RCPSCollapse_forward_not_either_half :
  (Torch.has_shape 1 1 4 [[[1; 2; 2; 1]]]%float = true /\
   Torch.flip [[[1; 2; 2; 1]]]%float = [[[1; 2; 2; 1]]]%float /\
   @RCPSCollapse.forward _ Float_Scalar [[[1; 2; 2; 1]]]%float =
     Some [[[1; 2]]]%float /\
   @RCPSCollapse.forward _ Float_Scalar [[[1; 2; 2; 1]]]%float <>
     Some (Torch.slice_from 2 [[[1; 2; 2; 1]]]%float)) /\
  (Torch.has_shape 1 1 4 [[[float_max; 1; 1; float_max]]]%float = true /\
   Torch.flip [[[float_max; 1; 1; float_max]]]%float =
     [[[float_max; 1; 1; float_max]]]%float /\
   @RCPSCollapse.forward _ Float_Scalar
     [[[float_max; 1; 1; float_max]]]%float =
     Some [[[PrimFloat.infinity; 1]]]%float /\
   @RCPSCollapse.forward _ Float_Scalar
     [[[float_max; 1; 1; float_max]]]%float <>
     Some (Torch.slice_to 2 [[[float_max; 1; 1; float_max]]]%float)).
Proof.
  split; (split; [reflexivity|]); (split; [reflexivity|]);
    (split; [reflexivity|]).
  - intros Heq.
    pose proof (f_equal (fun o : option (Tensor3 float) =>
                           match o with
                           | Some (((a :: _) :: _) :: _) => a
                           | _ => PrimFloat.zero
                           end) Heq) as Habs.
    vm_compute in Habs.
    revert Habs. now apply float_neq.
  - intros Heq.
    pose proof (f_equal (fun o : option (Tensor3 float) =>
                           match o with
                           | Some (((a :: _) :: _) :: _) => a
                           | _ => PrimFloat.zero
                           end) Heq) as Habs.
    vm_compute in Habs.
    revert Habs. now apply float_neq.
Qed.

(** The same on integers: [[1;2;2;1]] is its own flip and collapses to its
    first half [1;2], which is not its second half [2;1]. *)
Lemma RCPSCollapse_forward_not_second_half :
  Torch.has_shape 1 1 4 [[[1; 2; 2; 1]]]%Z = true /\
  Torch.flip [[[1; 2; 2; 1]]]%Z = [[[1; 2; 2; 1]]]%Z /\
  RCPSCollapse.forward [[[1; 2; 2; 1]]]%Z = Some [[[1; 2]]]%Z /\
  RCPSCollapse.forward [[[1; 2; 2; 1]]]%Z <>
  Some (Torch.slice_from 2 [[[1; 2; 2; 1]]]%Z).
Proof.
  repeat split. discriminate.
Qed.

(** * RCPSAddNormWrapper *)

(** C8 (amended). For every input and optional residual, the add-norm
    wrapper returns the pair described by [Spec.addnorm_flipped_back]: with
    [s] the forward residual sum ([x + residual], or [x] without a
    residual), the reverse sum is the flip of [s]; the returned [x] is the
    channel concatenation of the normalised [s] and the flip of the
    normalised reverse sum, and the returned residual is the channel
    concatenation of [s] and the flip of the reverse sum, that is, of [s]
    with itself. *)
Theorem RCPSAddNormWrapper_forward_spec {R : Type} `{Scalar R}
  (norm_f : Tensor3 R -> option (Tensor3 R)) (to_dtype : R -> R)
  (x : Tensor3 R) (residual : option (Tensor3 R)) :
  RCPSAddNormWrapper.forward norm_f to_dtype x residual =
  Spec.addnorm_flipped_back norm_f to_dtype x residual.
Proof.
  unfold RCPSAddNormWrapper.forward, Spec.addnorm_flipped_back,
    Spec.residual_sum, RCPSAddNormWrapper.rc.
  assert (match residual with
          | Some r => Torch.add (Torch.flip x) (Torch.flip r)
          | None => Some (Torch.flip x)
          end =
          option_map Torch.flip
            match residual with
            | Some r => Torch.add x r
            | None => Some x
            end) as Hrc.
  { destruct residual as [r|]; [|reflexivity]. symmetry. apply flip_add. }
  rewrite Hrc.
  destruct (match residual with
            | Some r => Torch.add x r
            | None => Some x
            end) as [s|]; simpl; [|reflexivity].
  destruct (norm_f (RCPSAddNormWrapper.cast to_dtype s)) as [x_fwd|];
    [|reflexivity].
  destruct (norm_f (RCPSAddNormWrapper.cast to_dtype (Torch.flip s)))
    as [x_rc|]; [|reflexivity].
  now rewrite flip_involutive, cat_last_diag.
Qed.

(** C8 as stated, without the flip of the reverse branch, fails: with the
    identity as normalisation and no residual, the row [1;2] gives
    [1;2;1;2] in both results, not [1;2;2;1]. *)
Lemma RCPSAddNormWrapper_forward_not_unflipped :
  RCPSAddNormWrapper.forward (fun t => Some t) (fun u => u)
    [[[1; 2]]]%Z None =
  Some ([[[1; 2; 1; 2]]]%Z, [[[1; 2; 1; 2]]]%Z) /\
  Spec.addnorm_unflipped (fun t => Some t) (fun u => u)
    [[[1; 2]]]%Z None =
  Some ([[[1; 2; 2; 1]]]%Z, [[[1; 2; 2; 1]]]%Z) /\
  RCPSAddNormWrapper.forward (fun t => Some t) (fun u => u)
    [[[1; 2]]]%Z None <>
  Spec.addnorm_unflipped (fun t => Some t) (fun u => u)
    [[[1; 2]]]%Z None.
Proof.
  repeat split. discriminate.
Qed.

(** * RCPSWrapperKeepDim *)

Section LinearShapeFacts.
Context {R : Type} `{Scalar R}.

Lemma linear_has_shape (b l c_in c_out : nat) (x : Tensor3 R)
  (w : Tensor2 R) (bias : option (list R)) :
  Torch.has_shape b l c_in x = true ->
  Torch.has_shape2 c_out c_in w = true ->
  match bias with None => True | Some bv => length bv = c_out end ->
  exists y, Torch.linear x w bias = Some y /\
            Torch.has_shape b l c_out y = true.
Proof.
  intros Hx Hw Hb. exists (map (map (Spec.linear_row_out w bias)) x).
  apply has_shape_In in Hx as [Hlen Hx]. split.
  - apply mapM_total; intros m Hm.
    apply mapM_total; intros r Hr.
    unfold Torch.linear_row.
    rewrite (@weight_accepts_row R w c_out c_in r Hw)
      by now apply (Hx m Hm).
    unfold Spec.linear_row_out. destruct bias as [bv|]; [|reflexivity].
    apply zipM_total; [|reflexivity].
    apply has_shape2_In in Hw as [Hrows _].
    now rewrite length_map, Hrows, Hb.
  - apply has_shape_In. split; [now rewrite length_map|].
    intros m' Hm'. apply in_map_iff in Hm' as (m & <- & Hm).
    split; [rewrite length_map; now apply (Hx m Hm)|].
    intros r' Hr'. apply in_map_iff in Hr' as (r & <- & Hr).
    apply has_shape2_In in Hw as [Hrows _].
    unfold Spec.linear_row_out. destruct bias as [bv|].
    + rewrite length_map, length_combine, length_map. lia.
    + now rewrite length_map.
Qed.

(** Concatenating along the channels adds the channel counts. *)
Lemma cat_last_has_shape (b l c1 c2 : nat) (x y : Tensor3 R) :
  Torch.has_shape b l c1 x = true ->
  Torch.has_shape b l c2 y = true ->
  exists z, Torch.cat_last x y = Some z /\
            Torch.has_shape b l (c1 + c2) z = true.
Proof.
  intros Hx Hy.
  apply has_shape_In in Hx as [Hbx Hx]. apply has_shape_In in Hy as [Hby Hy].
  set (cat_m := fun m n : Tensor2 R =>
                  map (fun p => fst p ++ snd p) (combine m n)).
  exists (map (fun p => cat_m (fst p) (snd p)) (combine x y)). split.
  - apply zipM_total; [congruence|].
    intros m n Hin.
    apply zipM_total; [|reflexivity].
    destruct (Hx m (in_combine_l _ _ _ _ Hin)) as [-> _].
    now destruct (Hy n (in_combine_r _ _ _ _ Hin)) as [-> _].
  - apply has_shape_In. split.
    + rewrite length_map, length_combine. lia.
    + intros z Hz. apply in_map_iff in Hz as ([m n] & <- & Hin). simpl.
      destruct (Hx m (in_combine_l _ _ _ _ Hin)) as [Hlm Hrm].
      destruct (Hy n (in_combine_r _ _ _ _ Hin)) as [Hln Hrn].
      unfold cat_m. split.
      * rewrite length_map, length_combine. lia.
      * intros r Hr. apply in_map_iff in Hr as ([r1 r2] & <- & Hin2). simpl.
        rewrite length_app.
        rewrite (Hrm r1 (in_combine_l _ _ _ _ Hin2)).
        now rewrite (Hrn r2 (in_combine_r _ _ _ _ Hin2)).
Qed.

End LinearShapeFacts.

(** What a successful construction fixes. *)
Lemma RCPSWrapperKeepDim_init_Ok (dim : Z) (m : RCPSWrapperKeepDim.t) :
  RCPSWrapperKeepDim.init dim = Ok m ->
  (0 <= dim)%Z /\ (dim mod 2 = 0)%Z /\
  RCPSWrapperKeepDim.proj m =
  {| nn.in_features := dim; nn.out_features := (dim / 2)%Z;
     nn.with_bias := true |}.
Proof.
  unfold RCPSWrapperKeepDim.init, nn.Linear_init.
  destruct (dim mod 2 =? 0)%Z eqn:Heven; [|discriminate].
  destruct ((dim <? 0) || (dim / 2 <? 0))%Z eqn:Hneg; [discriminate|].
  intros Hm; inversion Hm; subst; simpl.
  apply orb_false_iff in Hneg as [Hneg _].
  apply Z.ltb_ge in Hneg. apply Z.eqb_eq in Heven.
  auto.
Qed.

(** C9. Let the module be constructed with an even [dim] and let the
    submodule return [dim] channels on both strands.  Then each branch is
    projected from [dim] to [dim / 2] channels by the one linear layer of the
    module, and the concatenation the forward pass returns has [dim]
    channels: the width of the submodule output, not twice that. *)
Theorem RCPSWrapperKeepDim_forward_keeps_dim {R : Type} `{Scalar R}
  (dim : Z) (m : RCPSWrapperKeepDim.t)
  (submodule : Tensor3 R -> option (Tensor3 R))
  (proj_weight : Tensor2 R) (proj_bias : option (list R))
  (b l : nat) (x s_fwd s_rc : Tensor3 R) :
  RCPSWrapperKeepDim.init dim = Ok m ->
  nn.Linear_holds (RCPSWrapperKeepDim.proj m) proj_weight proj_bias = true ->
  submodule x = Some s_fwd ->
  Torch.has_shape b l (Z.to_nat dim) s_fwd = true ->
  submodule (RCPSWrapper.rc x) = Some s_rc ->
  Torch.has_shape b l (Z.to_nat dim) s_rc = true ->
  exists p_fwd p_rc y,
    Torch.linear s_fwd proj_weight proj_bias = Some p_fwd /\
    Torch.has_shape b l (Z.to_nat dim / 2) p_fwd = true /\
    Torch.linear s_rc proj_weight proj_bias = Some p_rc /\
    Torch.has_shape b l (Z.to_nat dim / 2) p_rc = true /\
    Torch.cat_last p_fwd (RCPSWrapper.rc p_rc) = Some y /\
    RCPSWrapperKeepDim.forward submodule proj_weight proj_bias x = Some y /\
    Torch.has_shape b l (Z.to_nat dim) y = true.
Proof.
  intros Hinit Hholds Hfwd Hsf Hrc Hsr.
  destruct (RCPSWrapperKeepDim_init_Ok _ Hinit) as (Hpos & Heven & Hproj).
  unfold nn.Linear_holds in Hholds. rewrite Hproj in Hholds. simpl in Hholds.
  apply andb_true_iff in Hholds as [Hw Hb].
  assert (Z.to_nat (dim / 2) = Z.to_nat dim / 2) as Hhalf.
  { change 2 with (Z.to_nat 2). rewrite Z2Nat.inj_div by lia. reflexivity. }
  assert (Z.to_nat dim / 2 + Z.to_nat dim / 2 = Z.to_nat dim) as Hsum.
  { rewrite <- Hhalf.
    rewrite <- Z2Nat.inj_add by (apply Z.div_pos; lia). f_equal.
    pose proof (Z.div_mod dim 2). lia. }
  rewrite Hhalf in Hw.
  assert (match proj_bias with
          | None => True
          | Some bv => length bv = Z.to_nat dim / 2
          end) as Hbias.
  { destruct proj_bias as [bv|]; [|exact I].
    apply Nat.eqb_eq in Hb. now rewrite <- Hhalf. }
  edestruct (@linear_has_shape R) as (p_fwd & Hp1 & Hs1);
    [exact Hsf | exact Hw | exact Hbias |].
  edestruct (@linear_has_shape R) as (p_rc & Hp2 & Hs2);
    [exact Hsr | exact Hw | exact Hbias |].
  edestruct (@cat_last_has_shape R) as (y & Hy & Hsy);
    [exact Hs1 | apply flip_has_shape; exact Hs2 |].
  exists p_fwd, p_rc, y.
  rewrite Hsum in Hsy.
  unfold RCPSWrapperKeepDim.forward. rewrite Hfwd, Hp1, Hrc, Hp2.
  auto 10.
Qed.

Lemma RCPSWrapperKeepDim_forward_keeps_dim_witness :
  exists p_fwd p_rc y,
    Torch.linear [[[1; 2; 3; 4]; [5; 6; 7; 8]]]%Z
      [[1; 0; 0; 1]; [0; 1; 1; 0]]%Z (Some [10; 20]%Z) = Some p_fwd /\
    Torch.has_shape 1 2 (Z.to_nat 4 / 2) p_fwd = true /\
    Torch.linear (Torch.flip [[[1; 2; 3; 4]; [5; 6; 7; 8]]]%Z)
      [[1; 0; 0; 1]; [0; 1; 1; 0]]%Z (Some [10; 20]%Z) = Some p_rc /\
    Torch.has_shape 1 2 (Z.to_nat 4 / 2) p_rc = true /\
    Torch.cat_last p_fwd (RCPSWrapper.rc p_rc) = Some y /\
    RCPSWrapperKeepDim.forward (fun t => Some t)
      [[1; 0; 0; 1]; [0; 1; 1; 0]]%Z (Some [10; 20]%Z)
      [[[1; 2; 3; 4]; [5; 6; 7; 8]]]%Z = Some y /\
    Torch.has_shape 1 2 (Z.to_nat 4) y = true.
Proof.
  apply (@RCPSWrapperKeepDim_forward_keeps_dim Z Z_Scalar 4%Z
           {| RCPSWrapperKeepDim.proj :=
                {| nn.in_features := 4; nn.out_features := 2;
                   nn.with_bias := true |} |});
    reflexivity.
Defined.

(** A concrete run: four channels in, four channels out. *)
Example RCPSWrapperKeepDim_forward_run :
  RCPSWrapperKeepDim.forward (fun t => Some t)
    [[1; 0; 0; 1]; [0; 1; 1; 0]]%Z (Some [10; 20]%Z)
    [[[1; 2; 3; 4]; [5; 6; 7; 8]]]%Z =
  Some [[[15; 25; 25; 15]; [23; 33; 33; 23]]]%Z.
Proof. reflexivity. Qed.

(** * The complement buffer *)

Section BufferFacts.

Lemma setitem_fresh (k v : Z) (d : OrderedDict.t) :
  ~ In k (OrderedDict.keys d) -> OrderedDict.setitem k v d = d ++ [(k, v)].
Proof.
  induction d as [|[k' v'] d IH]; simpl; intros Hfresh; [reflexivity|].
  destruct (Z.eqb_spec k' k) as [->|Hne]; [tauto|].
  rewrite IH by tauto. reflexivity.
Qed.

Lemma make_from (items acc : list (Z * Z)) :
  NoDup (map fst (acc ++ items)) ->
  fold_left (fun d kv => OrderedDict.setitem (fst kv) (snd kv) d) items acc =
  acc ++ items.
Proof.
  revert acc; induction items as [|[k v] items IH]; intros acc Hnd; simpl.
  - now rewrite app_nil_r.
  - replace (acc ++ (k, v) :: items) with ((acc ++ [(k, v)]) ++ items) in *
      by now rewrite <- app_assoc.
    rewrite setitem_fresh; [now apply IH|].
    rewrite !map_app in Hnd. apply NoDup_app_remove_r in Hnd.
    simpl in Hnd. apply NoDup_remove_2 in Hnd.
    now rewrite app_nil_r in Hnd.
Qed.

(** Building an ordered dictionary from a dict keeps the items as they are. *)
Lemma make_dict (m : list (Z * Z)) :
  OrderedDict.is_dict m -> OrderedDict.make m = m.
Proof. intros Hm. now apply (make_from m []). Qed.

Lemma index_nonneg {A : Type} (t : list A) (i : nat) :
  Torch.index t (Z.of_nat i) = nth_error t i.
Proof.
  unfold Torch.index.
  destruct (Z.leb_spec 0 (Z.of_nat i)); [|lia].
  now rewrite Nat2Z.id.
Qed.

Lemma getitem_nth (m : list (Z * Z)) (i : nat) (k v : Z) :
  OrderedDict.is_dict m -> nth_error m i = Some (k, v) ->
  OrderedDict.getitem m k = Some v.
Proof.
  unfold OrderedDict.is_dict.
  revert i; induction m as [|[k' v'] m IH]; intros [|i] Hnd Hnth;
    simpl in *; try discriminate.
  - inversion Hnth; subst. now rewrite Z.eqb_refl.
  - inversion Hnd as [|? ? Hnotin Hnd']; subst.
    destruct (Z.eqb_spec k' k) as [->|Hne].
    + exfalso. apply Hnotin. apply nth_error_In in Hnth.
      now apply (in_map fst) in Hnth.
    + now apply (IH i).
Qed.

(** A key list that is not [s, s+1, ...] has a position holding another key. *)
Lemma first_misplaced_key (ks : list Z) (s : nat) :
  ks <> map Z.of_nat (seq s (length ks)) ->
  exists i k, nth_error ks i = Some k /\ k <> Z.of_nat (s + i).
Proof.
  revert s; induction ks as [|k ks IH]; intros s Hne; simpl in *;
    [congruence|].
  destruct (Z.eq_dec k (Z.of_nat s)) as [->|Hk].
  - destruct (IH (S s)) as (i & k' & Hnth & Hk'); [congruence|].
    exists (S i), k'. split; [assumption|].
    now rewrite Nat.add_succ_r.
  - exists 0, k. split; [reflexivity|]. now rewrite Nat.add_0_r.
Qed.

Lemma in_order_nth (ks : list Z) (s i : nat) (k : Z) :
  ks = map Z.of_nat (seq s (length ks)) ->
  nth_error ks i = Some k -> k = Z.of_nat (s + i).
Proof.
  intros Hks Hnth.
  assert (i < length ks) as Hlt by (apply nth_error_Some; congruence).
  rewrite Hks in Hnth.
  rewrite nth_error_map, nth_error_seq in Hnth.
  destruct (Nat.ltb_spec i (length ks)); [|lia].
  now inversion Hnth.
Qed.

Lemma getitem_Some_key (m : list (Z * Z)) (k v : Z) :
  OrderedDict.getitem m k = Some v -> In k (OrderedDict.keys m).
Proof.
  induction m as [|[k' v'] m IH]; simpl; [discriminate|].
  destruct (Z.eqb_spec k' k) as [->|Hne]; [now left|].
  intros Hget. right. now apply IH.
Qed.

(** With the keys 0..n-1 in iteration order, looking a key up in the buffer
    is reading its value in the dict. *)
Lemma buffer_lookup_in_order (m : list (Z * Z)) (k : Z) :
  OrderedDict.is_dict m -> Spec.keys_in_order m ->
  In k (OrderedDict.keys m) ->
  Torch.index (RCPSEmbedding.complement_buffer m) k = OrderedDict.getitem m k.
Proof.
  intros Hm Hord Hk. unfold RCPSEmbedding.complement_buffer.
  rewrite (@make_dict m Hm). unfold OrderedDict.values.
  unfold Spec.keys_in_order, OrderedDict.keys in *.
  apply In_nth_error in Hk as (i & Hnth).
  pose proof Hnth as Hki.
  rewrite <- (length_map fst m) in Hord.
  apply (@in_order_nth (map fst m) 0 i k Hord) in Hki. simpl in Hki. subst k.
  rewrite nth_error_map in Hnth.
  destruct (nth_error m i) as [[k v]|] eqn:Hi; [|discriminate].
  simpl in Hnth. injection Hnth as Hki.
  rewrite index_nonneg, nth_error_map, Hi. simpl.
  symmetry. apply (@getitem_nth m i (Z.of_nat i) v Hm). now rewrite <- Hki.
Qed.

Lemma in_order_key (m : list (Z * Z)) (i : Z) :
  Spec.keys_in_order m -> (0 <= i < Z.of_nat (length m))%Z ->
  In i (OrderedDict.keys m).
Proof.
  intros Hord Hi. rewrite Hord.
  apply in_map_iff. exists (Z.to_nat i). split; [lia|].
  apply in_seq. lia.
Qed.

(** A dict with keys 0..n-1 in order that is an involution read key to
    value gives an involutive buffer. *)
Lemma buffer_involutive_in_order (m : list (Z * Z)) :
  OrderedDict.is_dict m -> Spec.keys_in_order m ->
  (forall k, In k (OrderedDict.keys m) ->
     (j <- OrderedDict.getitem m k ;; OrderedDict.getitem m j) = Some k) ->
  Spec.involutive_on (Z.of_nat (length m)) (RCPSEmbedding.complement_buffer m).
Proof.
  intros Hm Hord Hinv i Hi.
  pose proof (@in_order_key m i Hord Hi) as Hk.
  rewrite (@buffer_lookup_in_order m i Hm Hord Hk).
  specialize (Hinv i Hk).
  destruct (OrderedDict.getitem m i) as [j|]; [|discriminate].
  rewrite (@buffer_lookup_in_order m j Hm Hord); [assumption|].
  destruct (OrderedDict.getitem m j) eqn:Hj; [|discriminate].
  now apply getitem_Some_key in Hj.
Qed.

End BufferFacts.

(** For a dict with keys 0..n-1 in order, the involution premise of the
    double reverse complement may be read key to value on the dict. *)
Lemma RCPSEmbedding_rc_twice_dict (m : list (Z * Z)) (s : Tensor2 Z) :
  OrderedDict.is_dict m -> Spec.keys_in_order m ->
  (forall k, In k (OrderedDict.keys m) ->
     (j <- OrderedDict.getitem m k ;; OrderedDict.getitem m j) = Some k) ->
  Spec.ids_in_range (Z.of_nat (length m)) s ->
  (s' <- RCPSEmbedding.rc (RCPSEmbedding.complement_buffer m) s ;;
   RCPSEmbedding.rc (RCPSEmbedding.complement_buffer m) s') = Some s.
Proof.
  intros Hm Hord Hinv Hs.
  destruct (rc_twice (@buffer_involutive_in_order m Hm Hord Hinv) Hs)
    as (s' & H1 & H2).
  now rewrite H1.
Qed.

(** For a dict with keys 0..n-1 in order that is an involution read key to
    value, the embedding is equivariant on every batch of its ids. *)
Lemma RCPSEmbedding_forward_equivariant_dict {R : Type} `{Scalar R}
  (weight proj_weight : Tensor2 R) (proj_bias : option (list R))
  (m : list (Z * Z)) (s : Tensor2 Z) :
  OrderedDict.is_dict m -> Spec.keys_in_order m ->
  (forall k, In k (OrderedDict.keys m) ->
     (j <- OrderedDict.getitem m k ;; OrderedDict.getitem m j) = Some k) ->
  Spec.ids_in_range (Z.of_nat (length m)) s ->
  exists s',
    RCPSEmbedding.rc (RCPSEmbedding.complement_buffer m) s = Some s' /\
    RCPSEmbedding.forward weight proj_weight proj_bias
      (RCPSEmbedding.complement_buffer m) s' =
    option_map Torch.flip
      (RCPSEmbedding.forward weight proj_weight proj_bias
         (RCPSEmbedding.complement_buffer m) s).
Proof.
  intros Hm Hord Hinv Hs.
  apply (@RCPSEmbedding_forward_equivariant R _ weight proj_weight proj_bias
           (Z.of_nat (length m))); [|assumption].
  now apply buffer_involutive_in_order.
Qed.

(** C10. For every supplied dict, entry [i] of the complement buffer is the
    [i]-th value of the dict in iteration order, and two dicts with the same
    values in the same order give the same buffer whatever their keys.  When
    the keys are 0..n-1 in iteration order the buffer lookup is the
    key-to-value reading; when they are vocabulary ids in another order and
    the values are pairwise distinct (as for a permutation), the buffer
    lookup differs from the key-to-value reading at some key, without any
    error at construction. *)
Theorem RCPSEmbedding_complement_buffer_from_values (m : list (Z * Z)) :
  OrderedDict.is_dict m ->
  (forall i, nth_error (RCPSEmbedding.complement_buffer m) i =
             option_map snd (nth_error m i)) /\
  (forall m', OrderedDict.is_dict m' ->
     OrderedDict.values m' = OrderedDict.values m ->
     RCPSEmbedding.complement_buffer m' = RCPSEmbedding.complement_buffer m) /\
  (Spec.keys_in_order m ->
   forall k, In k (OrderedDict.keys m) ->
     Torch.index (RCPSEmbedding.complement_buffer m) k =
     OrderedDict.getitem m k) /\
  (NoDup (OrderedDict.values m) ->
   (forall k, In k (OrderedDict.keys m) ->
      (0 <= k < Z.of_nat (length m))%Z) ->
   ~ Spec.keys_in_order m ->
   exists k, In k (OrderedDict.keys m) /\
     Torch.index (RCPSEmbedding.complement_buffer m) k <>
     OrderedDict.getitem m k).
Proof.
  intros Hm. unfold RCPSEmbedding.complement_buffer.
  rewrite (make_dict Hm). unfold OrderedDict.values, OrderedDict.keys.
  repeat split.
  - intros i. apply nth_error_map.
  - intros m' Hm' Hvals. now rewrite (make_dict Hm').
  - intros Hord k Hk.
    pose proof (@buffer_lookup_in_order m k Hm Hord Hk) as Hlook.
    unfold RCPSEmbedding.complement_buffer in Hlook.
    now rewrite (@make_dict m Hm) in Hlook.
  - intros Hvals Hrange Hord.
    unfold Spec.keys_in_order, OrderedDict.keys in Hord.
    rewrite <- (length_map fst m) in Hord.
    apply first_misplaced_key in Hord as (i & k & Hnth & Hk).
    simpl in Hk. exists k. split; [now apply nth_error_In in Hnth|].
    pose proof (Hrange k (nth_error_In _ _ Hnth)) as Hkr.
    rewrite nth_error_map in Hnth.
    destruct (nth_error m i) as [[k' v]|] eqn:Hi; [|discriminate].
    simpl in Hnth. inversion Hnth; subst k'.
    rewrite (@getitem_nth m i k v Hm Hi).
    rewrite <- (Z2Nat.id k) at 1 by lia. rewrite index_nonneg.
    intros Heq.
    assert (nth_error (map snd m) i = Some v) as Hvi
      by now rewrite nth_error_map, Hi.
    assert (i < length (map snd m)) as Hlt
      by (apply nth_error_Some; congruence).
    rewrite <- Hvi in Heq.
    apply (proj1 (NoDup_nth_error _) Hvals) in Heq.
    + apply Hk. now rewrite <- Heq, Z2Nat.id by lia.
    + rewrite length_map. lia.
Qed.

Lemma RCPSEmbedding_complement_buffer_from_values_witness :
  exists k, In k (OrderedDict.keys [(0, 1); (2, 2); (1, 0)]%Z) /\
    Torch.index
      (RCPSEmbedding.complement_buffer [(0, 1); (2, 2); (1, 0)]%Z) k <>
    OrderedDict.getitem [(0, 1); (2, 2); (1, 0)]%Z k.
Proof.
  assert (OrderedDict.is_dict [(0, 1); (2, 2); (1, 0)]%Z) as Hdict.
  { unfold OrderedDict.is_dict. simpl.
    repeat constructor; simpl; intuition discriminate. }
  destruct (RCPSEmbedding_complement_buffer_from_values Hdict)
    as (_ & _ & _ & Hdiffer).
  apply Hdiffer.
  - simpl. repeat constructor; simpl; intuition discriminate.
  - simpl. intros k [<-|[<-|[<-|[]]]]; lia.
  - unfold Spec.keys_in_order. simpl. discriminate.
Defined.

(** The dict {0:1, 2:2, 1:0} is an involution read key to value, but its
    buffer is [1; 2; 0]: id 1 is looked up as 2, not as 0. *)
Example complement_buffer_out_of_order :
  RCPSEmbedding.complement_buffer [(0, 1); (2, 2); (1, 0)]%Z = [1; 2; 0]%Z /\
  Torch.index (RCPSEmbedding.complement_buffer [(0, 1); (2, 2); (1, 0)]%Z) 1
  = Some 2%Z /\
  OrderedDict.getitem [(0, 1); (2, 2); (1, 0)]%Z 1 = Some 0%Z.
Proof. repeat split. Qed.

(** * Constructors and the parity of the dimension *)

Lemma odd_not_even (d : Z) : (d mod 2 <> 0)%Z -> (d mod 2 =? 0)%Z = false.
Proof. intros Hodd. now apply Z.eqb_neq. Qed.

(** An odd [d_model] never yields an embedding module. *)
Lemma RCPSEmbedding_init_odd (vocab_size d_model : Z) (cm : list (Z * Z)) :
  (d_model mod 2 <> 0)%Z ->
  raises (RCPSEmbedding.init vocab_size d_model cm) = true.
Proof.
  intros Hodd. unfold RCPSEmbedding.init.
  destruct (nn.Embedding_init vocab_size d_model); [|reflexivity].
  now rewrite (@odd_not_even _ Hodd).
Qed.

(** With sizes that can be allocated, it is the assertion that fails. *)
Lemma RCPSEmbedding_init_odd_assertion (vocab_size d_model : Z)
  (cm : list (Z * Z)) :
  (0 <= vocab_size)%Z -> (0 <= d_model)%Z -> (d_model mod 2 <> 0)%Z ->
  RCPSEmbedding.init vocab_size d_model cm =
  Raise (AssertionError "d_model must be even!").
Proof.
  intros Hv Hd Hodd. unfold RCPSEmbedding.init, nn.Embedding_init.
  destruct (Z.ltb_spec vocab_size 0); [lia|].
  destruct (Z.ltb_spec d_model 0); [lia|]. simpl.
  now rewrite (@odd_not_even _ Hodd).
Qed.

Lemma RCPSEmbedding_init_even (vocab_size d_model : Z) (cm : list (Z * Z)) :
  (0 <= vocab_size)%Z -> (0 <= d_model)%Z -> (d_model mod 2 = 0)%Z ->
  raises (RCPSEmbedding.init vocab_size d_model cm) = false.
Proof.
  intros Hv Hd Heven. unfold RCPSEmbedding.init, nn.Embedding_init,
    nn.Linear_init.
  destruct (Z.ltb_spec vocab_size 0); [lia|].
  destruct (Z.ltb_spec d_model 0); [lia|]. simpl.
  rewrite Heven. simpl.
  destruct (Z.ltb_spec (d_model / 2) 0); [|reflexivity].
  pose proof (Z.div_pos d_model 2). lia.
Qed.

Lemma RCPSWrapperKeepDim_init_odd (dim : Z) :
  (dim mod 2 <> 0)%Z ->
  RCPSWrapperKeepDim.init dim = Raise (AssertionError "dim must be even!").
Proof.
  intros Hodd. unfold RCPSWrapperKeepDim.init.
  now rewrite (@odd_not_even _ Hodd).
Qed.

Lemma RCPSWrapperKeepDim_init_even (dim : Z) :
  (0 <= dim)%Z -> (dim mod 2 = 0)%Z ->
  raises (RCPSWrapperKeepDim.init dim) = false.
Proof.
  intros Hd Heven. unfold RCPSWrapperKeepDim.init, nn.Linear_init.
  rewrite Heven. simpl.
  destruct (Z.ltb_spec dim 0); [lia|].
  destruct (Z.ltb_spec (dim / 2) 0); [|reflexivity].
  pose proof (Z.div_pos dim 2). lia.
Qed.

(** The add-norm variant has no parity check: every dimension that can be
    allocated is accepted, and the projection gets [dim / 2] outputs, rounded
    down. *)
Lemma RCPSAddNormWrapperKeepDim_init_any (dim : Z) :
  (0 <= dim)%Z ->
  RCPSAddNormWrapperKeepDim.init dim =
  Ok {| RCPSAddNormWrapperKeepDim.res_proj :=
          {| nn.in_features := dim; nn.out_features := (dim / 2)%Z;
             nn.with_bias := false |} |}.
Proof.
  intros Hd. unfold RCPSAddNormWrapperKeepDim.init, nn.Linear_init.
  destruct (Z.ltb_spec dim 0); [lia|].
  destruct (Z.ltb_spec (dim / 2) 0); [|reflexivity].
  pose proof (Z.div_pos dim 2). lia.
Qed.

(** C4. The embedding and the keep-dim wrapper reject the odd dimension 3
    with their assertion; the keep-dim add-norm wrapper accepts it, allocates
    a projection from 3 channels to 1, and its forward pass then returns 2
    channels for an input of 3. *)
Theorem RCPSAddNormWrapperKeepDim_init_odd_accepted :
  RCPSEmbedding.init 4 3 [(0, 1); (1, 0); (2, 3); (3, 2)]%Z =
    Raise (AssertionError "d_model must be even!") /\
  RCPSWrapperKeepDim.init 3 = Raise (AssertionError "dim must be even!") /\
  RCPSAddNormWrapperKeepDim.init 3 =
    Ok {| RCPSAddNormWrapperKeepDim.res_proj :=
            {| nn.in_features := 3; nn.out_features := 1;
               nn.with_bias := false |} |} /\
  RCPSAddNormWrapperKeepDim.forward (fun t => Some t) (fun u => u)
    [[1; 1; 1]]%Z [[[1; 2; 3]]]%Z None =
    Some ([[[6; 6]]]%Z, [[[6; 6]]]%Z).
Proof. repeat split. Qed.

(** * Further properties of the wrappers *)

(** X1. The strand flip [rc] of the wrappers undoes itself and keeps the shape
    (batch, length, channels) of its argument. *)
Theorem RCPSWrapper_rc_involutive {R : Type} (b l c : nat) (x : Tensor3 R) :
  RCPSWrapper.rc (RCPSWrapper.rc x) = x /\
  Torch.has_shape b l c (RCPSWrapper.rc x) = Torch.has_shape b l c x.
Proof.
  unfold RCPSWrapper.rc. split; [apply flip_involutive|].
  destruct (Torch.has_shape b l c x) eqn:Hx.
  - now apply flip_has_shape.
  - destruct (Torch.has_shape b l c (Torch.flip x)) eqn:Hf; [|reflexivity].
    apply flip_has_shape in Hf. rewrite flip_involutive in Hf. congruence.
Qed.

(** X2. The keep-dim wrapper is equivariant like the plain one, for every
    submodule and every projection: the flipped input gives the flipped
    output, and both sides raise together. *)
Theorem RCPSWrapperKeepDim_forward_equivariant {R : Type} `{Scalar R}
  (submodule : Tensor3 R -> option (Tensor3 R))
  (proj_weight : Tensor2 R) (proj_bias : option (list R)) (x : Tensor3 R) :
  RCPSWrapperKeepDim.forward submodule proj_weight proj_bias
    (RCPSWrapper.rc x) =
  option_map RCPSWrapper.rc
    (RCPSWrapperKeepDim.forward submodule proj_weight proj_bias x).
Proof.
  unfold RCPSWrapperKeepDim.forward, RCPSWrapper.rc.
  rewrite flip_involutive.
  destruct (submodule x) as [u|];
    [destruct (Torch.linear u proj_weight proj_bias) as [p|]|];
    (destruct (submodule (Torch.flip x)) as [v|];
     [destruct (Torch.linear v proj_weight proj_bias) as [q|]|]);
    simpl; try reflexivity.
  now rewrite flip_cat_last, flip_involutive.
Qed.

Section AddNormFacts.
Context {R : Type} `{Scalar R}.

(** The residual sum of the flipped operands is the flip of the sum. *)
Lemma residual_sum_flip (x : Tensor3 R) (residual : option (Tensor3 R)) :
  Spec.residual_sum (Torch.flip x) (option_map Torch.flip residual) =
  option_map Torch.flip (Spec.residual_sum x residual).
Proof.
  destruct residual as [r|]; simpl; [|reflexivity].
  symmetry. apply flip_add.
Qed.

Lemma flip_cat_last_flip (u v : Tensor3 R) :
  Torch.cat_last v (Torch.flip u) =
  option_map Torch.flip (Torch.cat_last u (Torch.flip v)).
Proof. now rewrite flip_cat_last, flip_involutive. Qed.

End AddNormFacts.

(** X3. The add-norm wrapper is equivariant: flipping the input and the
    residual (when there is one) flips both results, for every
    normalisation layer. *)
Theorem RCPSAddNormWrapper_forward_equivariant {R : Type} `{Scalar R}
  (norm_f : Tensor3 R -> option (Tensor3 R)) (to_dtype : R -> R)
  (x : Tensor3 R) (residual : option (Tensor3 R)) :
  RCPSAddNormWrapper.forward norm_f to_dtype
    (RCPSAddNormWrapper.rc x) (option_map RCPSAddNormWrapper.rc residual) =
  option_map
    (fun p => (RCPSAddNormWrapper.rc (fst p), RCPSAddNormWrapper.rc (snd p)))
    (RCPSAddNormWrapper.forward norm_f to_dtype x residual).
Proof.
  change (@RCPSAddNormWrapper.rc R) with (@Torch.flip R).
  unfold RCPSAddNormWrapper.forward.
  change (@RCPSAddNormWrapper.rc R) with (@Torch.flip R).
  pose proof (residual_sum_flip x residual) as Hfwd.
  unfold Spec.residual_sum in Hfwd.
  assert (match option_map Torch.flip residual with
          | Some r => Torch.add (Torch.flip (Torch.flip x)) (Torch.flip r)
          | None => Some (Torch.flip (Torch.flip x))
          end =
          match residual with
          | Some r => Torch.add x r
          | None => Some x
          end) as Hback.
  { destruct residual as [r|]; simpl; now rewrite !flip_involutive. }
  assert (match residual with
          | Some r => Torch.add (Torch.flip x) (Torch.flip r)
          | None => Some (Torch.flip x)
          end =
          option_map Torch.flip
            match residual with
            | Some r => Torch.add x r
            | None => Some x
            end) as Hmid.
  { destruct residual as [r|]; [|reflexivity]. symmetry. apply flip_add. }
  rewrite Hfwd, Hback, Hmid.
  destruct (match residual with
            | Some r => Torch.add x r
            | None => Some x
            end) as [s|]; simpl; [|reflexivity].
  destruct (norm_f (RCPSAddNormWrapper.cast to_dtype s)) as [n1|],
    (norm_f (RCPSAddNormWrapper.cast to_dtype (Torch.flip s))) as [n2|];
    simpl; try reflexivity.
  rewrite flip_involutive.
  rewrite (flip_cat_last_flip s (Torch.flip s)), flip_involutive.
  rewrite (flip_cat_last_flip n1 n2).
  destruct (Torch.cat_last s s) as [r'|]; simpl; [|reflexivity].
  now destruct (Torch.cat_last n1 (Torch.flip n2)).
Qed.

(** X4. The keep-dim add-norm wrapper is equivariant in the same way, for every
    normalisation layer and every residual projection. *)
Theorem RCPSAddNormWrapperKeepDim_forward_equivariant {R : Type} `{Scalar R}
  (norm_f : Tensor3 R -> option (Tensor3 R)) (to_dtype : R -> R)
  (res_proj_weight : Tensor2 R)
  (x : Tensor3 R) (residual : option (Tensor3 R)) :
  RCPSAddNormWrapperKeepDim.forward norm_f to_dtype res_proj_weight
    (RCPSAddNormWrapper.rc x) (option_map RCPSAddNormWrapper.rc residual) =
  option_map
    (fun p => (RCPSAddNormWrapper.rc (fst p), RCPSAddNormWrapper.rc (snd p)))
    (RCPSAddNormWrapperKeepDim.forward norm_f to_dtype res_proj_weight
       x residual).
Proof.
  change (@RCPSAddNormWrapper.rc R) with (@Torch.flip R).
  unfold RCPSAddNormWrapperKeepDim.forward.
  change (@RCPSAddNormWrapper.rc R) with (@Torch.flip R).
  pose proof (residual_sum_flip x residual) as Hfwd.
  unfold Spec.residual_sum in Hfwd.
  assert (match option_map Torch.flip residual with
          | Some r => Torch.add (Torch.flip (Torch.flip x)) (Torch.flip r)
          | None => Some (Torch.flip (Torch.flip x))
          end =
          match residual with
          | Some r => Torch.add x r
          | None => Some x
          end) as Hback.
  { destruct residual as [r|]; simpl; now rewrite !flip_involutive. }
  assert (match residual with
          | Some r => Torch.add (Torch.flip x) (Torch.flip r)
          | None => Some (Torch.flip x)
          end =
          option_map Torch.flip
            match residual with
            | Some r => Torch.add x r
            | None => Some x
            end) as Hmid.
  { destruct residual as [r|]; [|reflexivity]. symmetry. apply flip_add. }
  rewrite Hfwd, Hback, Hmid.
  destruct (match residual with
            | Some r => Torch.add x r
            | None => Some x
            end) as [s|]; simpl; [|reflexivity].
  destruct (Torch.linear s res_proj_weight None) as [p1|];
    [destruct (norm_f (RCPSAddNormWrapper.cast to_dtype p1)) as [n1|]|];
    (destruct (Torch.linear (Torch.flip s) res_proj_weight None) as [p2|];
     [destruct (norm_f (RCPSAddNormWrapper.cast to_dtype p2)) as [n2|]|]);
    simpl; try reflexivity.
  rewrite (flip_cat_last_flip p1 p2), (flip_cat_last_flip n1 n2).
  destruct (Torch.cat_last p1 (Torch.flip p2)) as [r'|]; simpl; [|reflexivity].
  now destruct (Torch.cat_last n1 (Torch.flip n2)).
Qed.

(** * Channel halves, concatenation and the collapse *)

Section ProjectionFacts.
Context {A B C : Type}.

(** Undoing a pairing on the left and on the right. *)
Lemma zipM_proj_l (f : A -> B -> option C) (g : C -> A)
  (l1 : list A) (l2 : list B) (r : list C) :
  (forall a b c, In a l1 -> In b l2 -> f a b = Some c -> g c = a) ->
  Torch.zipM f l1 l2 = Some r -> map g r = l1.
Proof.
  revert l2 r; induction l1 as [|a l1 IH]; intros [|b l2] r Hg Hz;
    simpl in *; try discriminate.
  - now inversion Hz.
  - destruct (f a b) as [c|] eqn:Hf; [|discriminate].
    destruct (Torch.zipM f l1 l2) as [r'|] eqn:Hr; [|discriminate].
    inversion Hz; subst. simpl. f_equal.
    + apply (Hg a b c); auto.
    + apply (IH l2); auto.
      intros a' b' c' Ha Hb. apply Hg; auto.
Qed.

Lemma zipM_proj_r (f : A -> B -> option C) (g : C -> B)
  (l1 : list A) (l2 : list B) (r : list C) :
  (forall a b c, In a l1 -> In b l2 -> f a b = Some c -> g c = b) ->
  Torch.zipM f l1 l2 = Some r -> map g r = l2.
Proof.
  revert l2 r; induction l1 as [|a l1 IH]; intros [|b l2] r Hg Hz;
    simpl in *; try discriminate.
  - now inversion Hz.
  - destruct (f a b) as [c|] eqn:Hf; [|discriminate].
    destruct (Torch.zipM f l1 l2) as [r'|] eqn:Hr; [|discriminate].
    inversion Hz; subst. simpl. f_equal.
    + apply (Hg a b c); auto.
    + apply (IH l2); auto.
      intros a' b' c' Ha Hb. apply Hg; auto.
Qed.

End ProjectionFacts.

Section HalfFacts.
Context {R : Type} `{Scalar R}.

(** The two channel slices of a concatenation are its operands. *)
Lemma cat_last_slices (b l c c' : nat) (u v y : Tensor3 R) :
  Torch.has_shape b l c u = true ->
  Torch.has_shape b l c' v = true ->
  Torch.cat_last u v = Some y ->
  Torch.slice_to c y = u /\ Torch.slice_from c y = v.
Proof.
  intros Hu Hv Hy.
  apply has_shape_In in Hu as [_ Hu]. apply has_shape_In in Hv as [_ Hv].
  unfold Torch.cat_last in Hy. unfold Torch.slice_to, Torch.slice_from. split.
  - eapply zipM_proj_l; [|exact Hy]. intros m n z Hm Hn Hz.
    eapply zipM_proj_l; [|exact Hz]. intros r s t Hr Hs Ht.
    inversion Ht; subst.
    destruct (Hu m Hm) as [_ Hlen].
    rewrite firstn_app, (Hlen r Hr), Nat.sub_diag, firstn_O, app_nil_r.
    apply firstn_all2. now rewrite (Hlen r Hr).
  - eapply zipM_proj_r; [|exact Hy]. intros m n z Hm Hn Hz.
    eapply zipM_proj_r; [|exact Hz]. intros r s t Hr Hs Ht.
    inversion Ht; subst.
    destruct (Hu m Hm) as [_ Hlen].
    rewrite skipn_app, (Hlen r Hr), Nat.sub_diag, skipn_O.
    rewrite skipn_all2 by now rewrite (Hlen r Hr).
    reflexivity.
Qed.

Lemma slice_to_has_shape (b l d : nat) (x : Tensor3 R) :
  Torch.has_shape b l (2 * d) x = true ->
  Torch.has_shape b l d (Torch.slice_to d x) = true.
Proof.
  rewrite !has_shape_In. intros [Hb Hx]. unfold Torch.slice_to.
  split; [now rewrite length_map|].
  intros m' Hm'. apply in_map_iff in Hm' as (m & <- & Hm).
  destruct (Hx m Hm) as [Hl Hr]. split; [now rewrite length_map|].
  intros r' Hr'. apply in_map_iff in Hr' as (r & <- & Hin).
  rewrite length_firstn, (Hr r Hin). lia.
Qed.

Lemma slice_from_has_shape (b l d : nat) (x : Tensor3 R) :
  Torch.has_shape b l (2 * d) x = true ->
  Torch.has_shape b l d (Torch.slice_from d x) = true.
Proof.
  rewrite !has_shape_In. intros [Hb Hx]. unfold Torch.slice_from.
  split; [now rewrite length_map|].
  intros m' Hm'. apply in_map_iff in Hm' as (m & <- & Hm).
  destruct (Hx m Hm) as [Hl Hr]. split; [now rewrite length_map|].
  intros r' Hr'. apply in_map_iff in Hr' as (r & <- & Hin).
  rewrite length_skipn, (Hr r Hin). lia.
Qed.

(** The second channel half of the flip is the flip of the first half. *)
Lemma slice_from_flip (b l d : nat) (x : Tensor3 R) :
  Torch.has_shape b l (2 * d) x = true ->
  Torch.slice_from d (Torch.flip x) = Torch.flip (Torch.slice_to d x).
Proof.
  intros Hx. apply has_shape_In in Hx as [_ Hx].
  unfold Torch.slice_to, Torch.slice_from, Torch.flip. rewrite !map_map.
  apply map_ext_in; intros m Hm. unfold Torch.flip_matrix.
  rewrite !map_rev, !map_map. f_equal.
  apply map_ext_in; intros r Hr.
  apply skipn_rev_half. now apply (Hx m Hm).
Qed.

(** Adding two tensors of one shape succeeds and keeps the shape. *)
Lemma add_has_shape (b l c : nat) (x y : Tensor3 R) :
  Torch.has_shape b l c x = true ->
  Torch.has_shape b l c y = true ->
  exists s, Torch.add x y = Some s /\ Torch.has_shape b l c s = true.
Proof.
  intros Hx Hy.
  apply has_shape_In in Hx as [Hbx Hx]. apply has_shape_In in Hy as [Hby Hy].
  set (add_r := fun r s : list R =>
                  map (fun p => sadd (fst p) (snd p)) (combine r s)).
  set (add_m := fun m n : Tensor2 R =>
                  map (fun p => add_r (fst p) (snd p)) (combine m n)).
  exists (map (fun p => add_m (fst p) (snd p)) (combine x y)). split.
  - apply zipM_total; [congruence|].
    intros m n Hin.
    destruct (Hx m (in_combine_l _ _ _ _ Hin)) as [Hlm Hrm].
    destruct (Hy n (in_combine_r _ _ _ _ Hin)) as [Hln Hrn].
    apply zipM_total; [congruence|].
    intros r s Hin2. unfold Torch.add_row.
    apply zipM_total; [|reflexivity].
    rewrite (Hrm r (in_combine_l _ _ _ _ Hin2)).
    now rewrite (Hrn s (in_combine_r _ _ _ _ Hin2)).
  - apply has_shape_In. split.
    + rewrite length_map, length_combine. lia.
    + intros z Hz. apply in_map_iff in Hz as ([m n] & <- & Hin). simpl.
      destruct (Hx m (in_combine_l _ _ _ _ Hin)) as [Hlm Hrm].
      destruct (Hy n (in_combine_r _ _ _ _ Hin)) as [Hln Hrn].
      unfold add_m. split.
      * rewrite length_map, length_combine. lia.
      * intros t Ht. apply in_map_iff in Ht as ([r s] & <- & Hin2). simpl.
        unfold add_r. rewrite length_map, length_combine.
        rewrite (Hrm r (in_combine_l _ _ _ _ Hin2)).
        rewrite (Hrn s (in_combine_r _ _ _ _ Hin2)). lia.
Qed.

Lemma halve_has_shape (b l c : nat) (x : Tensor3 R) :
  Torch.has_shape b l c x = true ->
  Torch.has_shape b l c (Torch.halve x) = true.
Proof.
  rewrite !has_shape_In. intros [Hb Hx]. unfold Torch.halve.
  split; [now rewrite length_map|].
  intros m' Hm'. apply in_map_iff in Hm' as (m & <- & Hm).
  destruct (Hx m Hm) as [Hl Hr]. split; [now rewrite length_map|].
  intros r' Hr'. apply in_map_iff in Hr' as (r & <- & Hin).
  rewrite length_map. now apply Hr.
Qed.

(** On [2d] channels the collapse splits at [d]. *)
Lemma collapse_at_shape (b l d : nat) (x : Tensor3 R) :
  Torch.has_shape b l (2 * d) x = true ->
  RCPSCollapse.forward x =
  (s <- Torch.add (Torch.slice_to d x) (Torch.flip (Torch.slice_from d x)) ;;
   Some (Torch.halve s)).
Proof.
  intros Hx. unfold RCPSCollapse.forward. cbv zeta.
  unfold Torch.slice_to, Torch.slice_from.
  rewrite (@slice_at_shape_last R _ (@firstn R) b l (2 * d) x Hx).
  rewrite (@slice_at_shape_last R _ (@skipn R) b l (2 * d) x Hx).
  now replace (2 * d / 2) with d by (now rewrite Nat.mul_comm, Nat.div_mul).
Qed.

Hypothesis sadd_comm : forall u v : R, sadd u v = sadd v u.

Lemma add_comm (x y : Tensor3 R) : Torch.add x y = Torch.add y x.
Proof.
  unfold Torch.add. rewrite zipM_swap.
  apply zipM_ext; intros m n. rewrite zipM_swap.
  apply zipM_ext; intros r s. now apply add_row_comm.
Qed.

End HalfFacts.

(** X6. The collapse does not see the strand flip: a tensor of [2d] channels
    and its flip (length and channel axes) collapse to the same tensor.
    Scalar addition is commutative. *)
Theorem RCPSCollapse_forward_flip_invariant {R : Type} `{Scalar R}
  (b l d : nat) (x : Tensor3 R) :
  (forall u v : R, sadd u v = sadd v u) ->
  Torch.has_shape b l (2 * d) x = true ->
  RCPSCollapse.forward (Torch.flip x) = RCPSCollapse.forward x.
Proof.
  intros Hcomm Hx.
  rewrite (@collapse_at_shape R _ b l d (Torch.flip x))
    by now apply flip_has_shape.
  rewrite (@collapse_at_shape R _ b l d x Hx).
  rewrite (@slice_to_flip R b l d x Hx), (@slice_from_flip R b l d x Hx).
  rewrite flip_involutive.
  now rewrite (@add_comm R _ Hcomm).
Qed.

Lemma RCPSCollapse_forward_flip_invariant_witness :
  RCPSCollapse.forward (Torch.flip [[[1; 2; 3; 4]; [5; 6; 7; 9]]]%Z) =
  RCPSCollapse.forward [[[1; 2; 3; 4]; [5; 6; 7; 9]]]%Z.
Proof.
  apply (@RCPSCollapse_forward_flip_invariant Z Z_Scalar 1 2 2).
  - intros u v. simpl. lia.
  - reflexivity.
Defined.

(** X7. On a tensor of shape (batch, length, 2d) the collapse succeeds and
    returns a tensor of shape (batch, length, d). *)
Theorem RCPSCollapse_forward_shape {R : Type} `{Scalar R}
  (b l d : nat) (x : Tensor3 R) :
  Torch.has_shape b l (2 * d) x = true ->
  exists y, RCPSCollapse.forward x = Some y /\
            Torch.has_shape b l d y = true.
Proof.
  intros Hx. rewrite (@collapse_at_shape R _ b l d x Hx).
  edestruct (@add_has_shape R) as (s & Hs & Hshape);
    [apply slice_to_has_shape; exact Hx
    |apply flip_has_shape, slice_from_has_shape; exact Hx|].
  rewrite Hs. exists (Torch.halve s). split; [reflexivity|].
  now apply halve_has_shape.
Qed.

Lemma RCPSCollapse_forward_shape_witness :
  exists y, RCPSCollapse.forward [[[1; 2; 3; 4]; [5; 6; 7; 9]]]%Z = Some y /\
            Torch.has_shape 1 2 2 y = true.
Proof.
  apply (@RCPSCollapse_forward_shape Z Z_Scalar 1 2 2). reflexivity.
Defined.

Example RCPSCollapse_forward_run :
  @RCPSCollapse.forward _ Float_Scalar
    [[[1; 2; 3; 4]; [5; 6; 7; 9]]]%float =
  Some [[[5; 4.5]; [4.5; 4.5]]]%float.
Proof. reflexivity. Qed.

Section CollapseWrapperFacts.
Context {R : Type} `{Scalar R}.

(** Collapsing a forward strand concatenated with a flipped reverse strand
    averages the two strands. *)
Lemma collapse_cat_last (b l c : nat) (u v : Tensor3 R) :
  Torch.has_shape b l c u = true ->
  Torch.has_shape b l c v = true ->
  (y <- Torch.cat_last u (Torch.flip v) ;; RCPSCollapse.forward y) =
  option_map Torch.halve (Torch.add u v).
Proof.
  intros Hu Hv.
  pose proof (flip_has_shape _ _ _ _ Hv) as Hfv.
  edestruct (@cat_last_has_shape R) as (y & Hy & Hshape);
    [exact Hu | exact Hfv |].
  rewrite Hy.
  replace (c + c) with (2 * c) in Hshape by lia.
  rewrite (@collapse_at_shape R _ b l c y Hshape).
  destruct (@cat_last_slices R b l c c u (Torch.flip v) y Hu Hfv Hy)
    as [-> ->].
  rewrite flip_involutive.
  now destruct (Torch.add u v).
Qed.

End CollapseWrapperFacts.

(** X8. Collapsing the output of the wrapper averages the submodule outputs on
    the two strands, and therefore gives the same result on an input and on
    its flip.  The submodule returns tensors of one shape on the two
    strands; scalar addition is commutative. *)
Theorem RCPSCollapse_after_RCPSWrapper {R : Type} `{Scalar R}
  (submodule : Tensor3 R -> option (Tensor3 R))
  (b l c : nat) (x u v : Tensor3 R) :
  (forall p q : R, sadd p q = sadd q p) ->
  submodule x = Some u ->
  submodule (RCPSWrapper.rc x) = Some v ->
  Torch.has_shape b l c u = true ->
  Torch.has_shape b l c v = true ->
  (y <- RCPSWrapper.forward submodule x ;; RCPSCollapse.forward y) =
    option_map Torch.halve (Torch.add u v) /\
  (y <- RCPSWrapper.forward submodule (RCPSWrapper.rc x) ;;
   RCPSCollapse.forward y) =
  (y <- RCPSWrapper.forward submodule x ;; RCPSCollapse.forward y).
Proof.
  intros Hcomm Hu Hv Hsu Hsv.
  assert ((y <- RCPSWrapper.forward submodule x ;; RCPSCollapse.forward y) =
          option_map Torch.halve (Torch.add u v)) as Hfwd.
  { unfold RCPSWrapper.forward. rewrite Hu, Hv. unfold RCPSWrapper.rc.
    now apply (@collapse_cat_last R _ b l c). }
  split; [assumption|].
  rewrite Hfwd. unfold RCPSWrapper.forward.
  unfold RCPSWrapper.rc in *. rewrite flip_involutive, Hu, Hv.
  rewrite (@collapse_cat_last R _ b l c v u Hsv Hsu).
  now rewrite (@add_comm R _ Hcomm).
Qed.

Lemma RCPSCollapse_after_RCPSWrapper_witness :
  (y <- RCPSWrapper.forward (fun t => Some t) [[[1; 2]; [3; 5]]]%Z ;;
   RCPSCollapse.forward y) =
    option_map Torch.halve
      (Torch.add [[[1; 2]; [3; 5]]]%Z (Torch.flip [[[1; 2]; [3; 5]]]%Z)) /\
  (y <- RCPSWrapper.forward (fun t => Some t)
          (RCPSWrapper.rc [[[1; 2]; [3; 5]]]%Z) ;;
   RCPSCollapse.forward y) =
  (y <- RCPSWrapper.forward (fun t => Some t) [[[1; 2]; [3; 5]]]%Z ;;
   RCPSCollapse.forward y).
Proof.
  apply (@RCPSCollapse_after_RCPSWrapper Z Z_Scalar (fun t => Some t) 1 2 2).
  - intros p q. simpl. lia.
  - reflexivity.
  - reflexivity.
  - reflexivity.
  - reflexivity.
Defined.

(** X9. When the submodule returns [c] channels on both strands, the wrapper
    succeeds and returns [2c] channels: the first [c] are the submodule
    output on the input, the last [c] are the flipped submodule output on
    the flipped input. *)
Theorem RCPSWrapper_forward_halves {R : Type}
  (submodule : Tensor3 R -> option (Tensor3 R))
  (b l c : nat) (x u v : Tensor3 R) :
  submodule x = Some u ->
  submodule (RCPSWrapper.rc x) = Some v ->
  Torch.has_shape b l c u = true ->
  Torch.has_shape b l c v = true ->
  exists y, RCPSWrapper.forward submodule x = Some y /\
            Torch.has_shape b l (2 * c) y = true /\
            Torch.slice_to c y = u /\
            Torch.slice_from c y = RCPSWrapper.rc v.
Proof.
  intros Hu Hv Hsu Hsv.
  pose proof (flip_has_shape _ _ _ _ Hsv) as Hfv.
  unfold RCPSWrapper.forward. rewrite Hu, Hv. unfold RCPSWrapper.rc.
  edestruct (@cat_last_has_shape R) as (y & Hy & Hshape);
    [exact Hsu | exact Hfv |].
  exists y. rewrite Hy.
  replace (c + c) with (2 * c) in Hshape by lia.
  split; [reflexivity|]. split; [assumption|].
  eapply cat_last_slices; eassumption.
Qed.

Lemma RCPSWrapper_forward_halves_witness :
  exists y, RCPSWrapper.forward (fun t => Some t) [[[1; 2]; [3; 5]]]%Z
            = Some y /\
            Torch.has_shape 1 2 (2 * 2) y = true /\
            Torch.slice_to 2 y = [[[1; 2]; [3; 5]]]%Z /\
            Torch.slice_from 2 y =
            RCPSWrapper.rc (Torch.flip [[[1; 2]; [3; 5]]]%Z).
Proof.
  apply (@RCPSWrapper_forward_halves Z (fun t => Some t) 1 2 2
           [[[1; 2]; [3; 5]]]%Z); reflexivity.
Defined.

(** * Ids, complement and embedding *)

Section SuccessFacts.
Context {A B : Type}.

(** A successful pass succeeded on every element. *)
Lemma mapM_Some_In (f : A -> option B) (l : list A) (r : list B) (a : A) :
  Torch.mapM f l = Some r -> In a l -> exists b, f a = Some b /\ In b r.
Proof.
  revert r; induction l as [|a0 l IH]; simpl; intros r Hr Hin; [tauto|].
  destruct (f a0) as [b0|] eqn:Hf; [|discriminate].
  destruct (Torch.mapM f l) as [r'|]; [|discriminate].
  inversion Hr; subst.
  destruct Hin as [<-|Hin].
  - exists b0. split; [assumption|now left].
  - destruct (IH r' eq_refl Hin) as (b & Hb & Hbin).
    exists b. split; [assumption|now right].
Qed.

End SuccessFacts.

Section IndexFacts.
Context {A : Type}.

Lemma index_Some_bounds (t : list A) (i : Z) (a : A) :
  Torch.index t i = Some a ->
  (- Z.of_nat (length t) <= i < Z.of_nat (length t))%Z.
Proof.
  unfold Torch.index.
  destruct (Z.leb_spec 0 i) as [Hpos|Hneg].
  - intros Hnth.
    assert (Z.to_nat i < length t) by (apply nth_error_Some; congruence).
    lia.
  - destruct (Z.leb_spec (- Z.of_nat (length t)) i); [|discriminate].
    intros _. lia.
Qed.

Lemma embedding_row_Some_bounds (weight : Tensor2 A) (id : Z) (row : list A) :
  Torch.embedding_row weight id = Some row ->
  (0 <= id < Z.of_nat (length weight))%Z.
Proof.
  unfold Torch.embedding_row.
  destruct (Z.ltb_spec id 0); [discriminate|].
  intros Hnth.
  assert (Z.to_nat id < length weight) by (apply nth_error_Some; congruence).
  lia.
Qed.

End IndexFacts.

(** X10. Reverse complement is complement then reverse as well as reverse then
    complement: a successful [rc] is the row reversal of the complemented
    batch, and it keeps the number of rows and the length of every row. *)
Theorem RCPSEmbedding_rc_reverse_of_complement (cmap : list Z)
  (x y : Tensor2 Z) :
  RCPSEmbedding.rc cmap x = Some y ->
  RCPSEmbedding.vmap_complement cmap x = Some (Torch.flip_last2 y) /\
  map (@length Z) y = map (@length Z) x.
Proof.
  unfold RCPSEmbedding.rc, RCPSEmbedding.vmap_complement, Torch.flip_last2.
  rewrite mapM_map.
  rewrite (mapM_ext _ (fun row => option_map (@rev Z)
                                   (Torch.mapM (Torch.index cmap) row)))
    by (intros; apply mapM_rev).
  rewrite <- mapM_option_map.
  destruct (Torch.mapM (Torch.mapM (Torch.index cmap)) x) as [z|] eqn:Hz;
    [|discriminate].
  simpl. intros Hy; inversion Hy; subst. split.
  - f_equal. rewrite map_map. rewrite <- (map_id z) at 1.
    apply map_ext; intros row. now rewrite rev_involutive.
  - rewrite map_map.
    clear Hy. revert z Hz; induction x as [|row x IH]; simpl; intros z Hz.
    + now inversion Hz.
    + destruct (Torch.mapM (Torch.index cmap) row) as [row'|] eqn:Hrow;
        [|discriminate].
      destruct (Torch.mapM (Torch.mapM (Torch.index cmap)) x) as [z'|];
        [|discriminate].
      inversion Hz; subst. simpl.
      rewrite length_rev, (mapM_length _ _ Hrow).
      f_equal. now apply IH.
Qed.

Lemma RCPSEmbedding_rc_reverse_of_complement_witness :
  RCPSEmbedding.vmap_complement [1; 0; 3; 2]%Z [[0; 2; 2; 1]; [3]]%Z =
    Some (Torch.flip_last2 [[0; 3; 3; 1]; [2]]%Z) /\
  map (@length Z) [[0; 3; 3; 1]; [2]]%Z =
  map (@length Z) [[0; 2; 2; 1]; [3]]%Z.
Proof.
  apply (@RCPSEmbedding_rc_reverse_of_complement [1; 0; 3; 2]%Z).
  reflexivity.
Defined.

(** X11. The forward pass indexes without checking first: when it returns, every
    id of the batch is a row of the embedding table and an entry of the
    complement buffer, and its complement is a row of the embedding table
    too.  An id outside either range makes the forward pass raise, whatever
    [vocab_size] was at construction. *)
Theorem RCPSEmbedding_forward_ids_valid {R : Type} `{Scalar R}
  (weight proj_weight : Tensor2 R) (proj_bias : option (list R))
  (cmap : list Z) (s : Tensor2 Z) (y : Tensor3 R) :
  RCPSEmbedding.forward weight proj_weight proj_bias cmap s = Some y ->
  Forall (Forall (fun id =>
    (0 <= id < Z.of_nat (length weight))%Z /\
    (id < Z.of_nat (length cmap))%Z /\
    exists j, Torch.index cmap id = Some j /\
              (0 <= j < Z.of_nat (length weight))%Z)) s.
Proof.
  unfold RCPSEmbedding.forward. intros Hfwd.
  apply Forall_forall; intros row Hrow.
  apply Forall_forall; intros id Hid.
  destruct (Torch.embedding s weight) as [e|] eqn:He; [|discriminate].
  destruct (Torch.linear e proj_weight proj_bias); [|discriminate].
  destruct (RCPSEmbedding.rc cmap s) as [s'|] eqn:Hrc; [|discriminate].
  destruct (Torch.embedding s' weight) as [e'|] eqn:He'; [|discriminate].
  clear Hfwd.
  unfold Torch.embedding in He, He'.
  destruct (mapM_Some_In _ _ row He Hrow) as (erow & Herow & _).
  destruct (mapM_Some_In _ _ id Herow Hid) as (v & Hv & _).
  apply embedding_row_Some_bounds in Hv.
  unfold RCPSEmbedding.rc, RCPSEmbedding.vmap_complement, Torch.flip_last2
    in Hrc.
  assert (In (rev row) (map (@rev Z) s)) as Hrev by now apply in_map.
  destruct (mapM_Some_In _ _ (rev row) Hrc Hrev) as (row' & Hrow' & Hin').
  assert (In id (rev row)) as Hidrev by now apply in_rev in Hid.
  destruct (mapM_Some_In _ _ id Hrow' Hidrev) as (j & Hj & Hjin).
  destruct (mapM_Some_In _ _ row' He' Hin') as (erow' & Herow' & _).
  destruct (mapM_Some_In _ _ j Herow' Hjin) as (v' & Hv' & _).
  apply embedding_row_Some_bounds in Hv'.
  pose proof (index_Some_bounds _ _ Hj) as Hb.
  split; [assumption|]. split; [lia|].
  exists j. now split.
Qed.

Lemma RCPSEmbedding_forward_ids_valid_witness :
  Forall (Forall (fun id =>
    (0 <= id < Z.of_nat (length [[1; 0]; [0; 1]; [2; 5]; [7; 3]]%Z))%Z /\
    (id < Z.of_nat (length [1; 0; 3; 2]%Z))%Z /\
    exists j, Torch.index [1; 0; 3; 2]%Z id = Some j /\
              (0 <= j < Z.of_nat (length [[1; 0]; [0; 1]; [2; 5]; [7; 3]]%Z))%Z))
    [[0; 2; 2; 1; 3]]%Z.
Proof.
  apply (@RCPSEmbedding_forward_ids_valid Z Z_Scalar
           [[1; 0]; [0; 1]; [2; 5]; [7; 3]]%Z [[1; 2]]%Z (Some [4]%Z)
           [1; 0; 3; 2]%Z [[0; 2; 2; 1; 3]]%Z
           [[[5; 6]; [16; 17]; [16; 17]; [6; 5]; [17; 16]]]%Z).
  reflexivity.
Defined.

(** A complement map with fewer entries than the vocabulary is accepted at
    construction, and the forward pass then raises on the ids beyond it. *)
Example RCPSEmbedding_short_complement_map :
  raises (RCPSEmbedding.init 4 2 [(0, 1); (1, 0)]%Z) = false /\
  RCPSEmbedding.forward [[1; 0]; [0; 1]; [2; 5]; [7; 3]]%Z [[1; 2]]%Z
    (Some [4]%Z) (RCPSEmbedding.complement_buffer [(0, 1); (1, 0)]%Z)
    [[0; 2]]%Z = None.
Proof. split; reflexivity. Qed.

Section EmbeddingShapeFacts.
Context {R : Type}.

(** Looking up ids of the table gives one table row per id. *)
Lemma embedding_has_shape (b l v d : nat) (ids : Tensor2 Z)
  (weight : Tensor2 R) :
  Torch.has_shape2 b l ids = true ->
  Spec.ids_in_range (Z.of_nat v) ids ->
  Torch.has_shape2 v d weight = true ->
  exists e, Torch.embedding ids weight = Some e /\
            Torch.has_shape b l d e = true.
Proof.
  intros Hids Hrange Hw.
  apply has_shape2_In in Hids as [Hb Hl]. apply has_shape2_In in Hw as [Hv Hd].
  unfold Spec.ids_in_range in Hrange. rewrite Forall_forall in Hrange.
  exists (map (map (fun id => nth (Z.to_nat id) weight [])) ids). split.
  - apply mapM_total; intros row Hrow.
    apply mapM_total; intros id Hid.
    pose proof (Hrange row Hrow) as Hr. rewrite Forall_forall in Hr.
    specialize (Hr id Hid). unfold Torch.embedding_row.
    destruct (Z.ltb_spec id 0); [lia|].
    apply nth_error_nth'. lia.
  - apply has_shape_In. split; [now rewrite length_map|].
    intros m Hm. apply in_map_iff in Hm as (row & <- & Hrow).
    split; [rewrite length_map; now apply Hl|].
    intros r Hr. apply in_map_iff in Hr as (id & <- & Hid).
    pose proof (Hrange row Hrow) as Hrg. rewrite Forall_forall in Hrg.
    specialize (Hrg id Hid).
    apply Hd, nth_In. lia.
Qed.

End EmbeddingShapeFacts.

(** When the complement buffer maps the vocabulary into itself, the reverse
    complement of a batch of vocabulary ids is a batch of vocabulary ids of
    the same shape. *)
Lemma rc_has_shape (b l : nat) (vocab : Z) (cmap : list Z) (s : Tensor2 Z) :
  (forall i, (0 <= i < vocab)%Z ->
     exists j, Torch.index cmap i = Some j /\ (0 <= j < vocab)%Z) ->
  Torch.has_shape2 b l s = true ->
  Spec.ids_in_range vocab s ->
  exists s', RCPSEmbedding.rc cmap s = Some s' /\
             Torch.has_shape2 b l s' = true /\
             Spec.ids_in_range vocab s'.
Proof.
  intros Hclosed Hs Hrange.
  apply has_shape2_In in Hs as [Hb Hl].
  unfold Spec.ids_in_range in *. rewrite Forall_forall in Hrange.
  assert (forall row i, In row s -> In i row ->
            Torch.index cmap i = Some (Spec.complement_or_zero cmap i) /\
            (0 <= Spec.complement_or_zero cmap i < vocab)%Z) as Hcomp.
  { intros row i Hrow Hi.
    pose proof (Hrange row Hrow) as Hr. rewrite Forall_forall in Hr.
    destruct (Hclosed i (Hr i Hi)) as (j & Hj & Hjr).
    unfold Spec.complement_or_zero. rewrite Hj. now split. }
  exists (map (fun row => rev (map (Spec.complement_or_zero cmap) row)) s).
  split; [|split].
  - unfold RCPSEmbedding.rc, RCPSEmbedding.vmap_complement, Torch.flip_last2.
    rewrite mapM_map. apply mapM_total; intros row Hrow.
    rewrite mapM_rev.
    rewrite (mapM_total (Torch.index cmap) (Spec.complement_or_zero cmap));
      [reflexivity|].
    intros i Hi. now apply (Hcomp row i Hrow Hi).
  - apply has_shape2_In. split; [now rewrite length_map|].
    intros r Hr. apply in_map_iff in Hr as (row & <- & Hrow).
    rewrite length_rev, length_map. now apply Hl.
  - apply Forall_forall; intros r Hr.
    apply in_map_iff in Hr as (row & <- & Hrow).
    apply Forall_forall; intros j Hj. apply in_rev in Hj.
    apply in_map_iff in Hj as (i & <- & Hi).
    now apply (Hcomp row i Hrow Hi).
Qed.

(** What a successful construction of the embedding fixes. *)
Lemma RCPSEmbedding_init_Ok (vocab_size d_model : Z) (m : list (Z * Z))
  (cfg : RCPSEmbedding.t) :
  RCPSEmbedding.init vocab_size d_model m = Ok cfg ->
  (0 <= vocab_size)%Z /\ (0 <= d_model)%Z /\ (d_model mod 2 = 0)%Z /\
  cfg = {| RCPSEmbedding.complement_map := RCPSEmbedding.complement_buffer m;
           RCPSEmbedding.embedding :=
             {| nn.num_embeddings := vocab_size;
                nn.embedding_dim := d_model |};
           RCPSEmbedding.proj :=
             {| nn.in_features := d_model;
                nn.out_features := (d_model / 2)%Z;
                nn.with_bias := true |} |}.
Proof.
  unfold RCPSEmbedding.init, nn.Embedding_init, nn.Linear_init.
  destruct (Z.ltb_spec vocab_size 0); [discriminate|].
  destruct (Z.ltb_spec d_model 0); [discriminate|]. simpl.
  destruct (Z.eqb_spec (d_model mod 2) 0); [|discriminate].
  destruct (d_model / 2 <? 0)%Z; [discriminate|].
  intros Hcfg; inversion Hcfg. auto.
Qed.

Lemma even_halves (d : Z) :
  (0 <= d)%Z -> (d mod 2 = 0)%Z ->
  Z.to_nat (d / 2) = Z.to_nat d / 2 /\
  Z.to_nat d / 2 + Z.to_nat d / 2 = Z.to_nat d.
Proof.
  intros Hpos Heven.
  assert (Z.to_nat (d / 2) = Z.to_nat d / 2) as Hhalf.
  { change 2 with (Z.to_nat 2). rewrite Z2Nat.inj_div by lia. reflexivity. }
  split; [assumption|].
  rewrite <- Hhalf.
  rewrite <- Z2Nat.inj_add by (apply Z.div_pos; lia). f_equal.
  pose proof (Z.div_mod d 2). lia.
Qed.

(** X12. The embedding returns the shape its constructor comment promises: for a
    module constructed with [vocab_size] and [d_model], parameters of the
    allocated sizes, a complement buffer that maps the vocabulary into
    itself and a batch of vocabulary ids of shape (batch, seq_len), the
    forward pass succeeds with a tensor of shape (batch, seq_len, d_model). *)
Theorem RCPSEmbedding_forward_shape {R : Type} `{Scalar R}
  (vocab_size d_model : Z) (m : list (Z * Z)) (cfg : RCPSEmbedding.t)
  (weight proj_weight : Tensor2 R) (proj_bias : option (list R))
  (b l : nat) (s : Tensor2 Z) :
  RCPSEmbedding.init vocab_size d_model m = Ok cfg ->
  Torch.has_shape2 (Z.to_nat vocab_size) (Z.to_nat d_model) weight = true ->
  nn.Linear_holds (RCPSEmbedding.proj cfg) proj_weight proj_bias = true ->
  (forall i, (0 <= i < vocab_size)%Z ->
     exists j, Torch.index (RCPSEmbedding.complement_map cfg) i = Some j /\
               (0 <= j < vocab_size)%Z) ->
  Torch.has_shape2 b l s = true ->
  Spec.ids_in_range vocab_size s ->
  exists y,
    RCPSEmbedding.forward weight proj_weight proj_bias
      (RCPSEmbedding.complement_map cfg) s = Some y /\
    Torch.has_shape b l (Z.to_nat d_model) y = true.
Proof.
  intros Hinit Hw Hholds Hclosed Hs Hrange.
  destruct (RCPSEmbedding_init_Ok _ _ _ Hinit) as (Hv & Hd & Heven & Hcfg).
  destruct (even_halves Hd Heven) as [Hhalf Hsum].
  rewrite Hcfg in Hholds. unfold nn.Linear_holds in Hholds. simpl in Hholds.
  apply andb_true_iff in Hholds as [Hpw Hpb].
  rewrite Hhalf in Hpw.
  assert (match proj_bias with
          | None => True
          | Some bv => length bv = Z.to_nat d_model / 2
          end) as Hbias.
  { destruct proj_bias as [bv|]; [|exact I].
    apply Nat.eqb_eq in Hpb. now rewrite <- Hhalf. }
  assert (Spec.ids_in_range (Z.of_nat (Z.to_nat vocab_size)) s) as Hrange'
    by now rewrite Z2Nat.id.
  destruct (@rc_has_shape b l vocab_size (RCPSEmbedding.complement_map cfg)
              s Hclosed Hs Hrange) as (s' & Hrc & Hs' & Hrange2).
  assert (Spec.ids_in_range (Z.of_nat (Z.to_nat vocab_size)) s') as Hrange2'
    by now rewrite Z2Nat.id.
  edestruct (@embedding_has_shape R) as (e & He & Hse);
    [exact Hs | exact Hrange' | exact Hw |].
  edestruct (@embedding_has_shape R) as (e' & He' & Hse');
    [exact Hs' | exact Hrange2' | exact Hw |].
  edestruct (@linear_has_shape R) as (p & Hp & Hsp);
    [exact Hse | exact Hpw | exact Hbias |].
  edestruct (@linear_has_shape R) as (p' & Hp' & Hsp');
    [exact Hse' | exact Hpw | exact Hbias |].
  edestruct (@cat_last_has_shape R) as (y & Hy & Hsy);
    [exact Hsp | apply flip_has_shape; exact Hsp' |].
  exists y. rewrite Hsum in Hsy.
  unfold RCPSEmbedding.forward. rewrite He, Hp, Hrc, He', Hp'.
  now split.
Qed.

Lemma RCPSEmbedding_forward_shape_witness :
  exists y,
    RCPSEmbedding.forward [[1; 0]; [0; 1]; [2; 5]; [7; 3]]%Z [[1; 2]]%Z
      (Some [4]%Z)
      (RCPSEmbedding.complement_map
         {| RCPSEmbedding.complement_map := [1; 0; 3; 2]%Z;
            RCPSEmbedding.embedding :=
              {| nn.num_embeddings := 4; nn.embedding_dim := 2 |};
            RCPSEmbedding.proj :=
              {| nn.in_features := 2; nn.out_features := 1;
                 nn.with_bias := true |} |})
      [[0; 2; 2; 1; 3]]%Z = Some y /\
    Torch.has_shape 1 5 (Z.to_nat 2) y = true.
Proof.
  apply (@RCPSEmbedding_forward_shape Z Z_Scalar 4%Z 2%Z
           [(0, 1); (1, 0); (2, 3); (3, 2)]%Z).
  - reflexivity.
  - reflexivity.
  - reflexivity.
  - intros i Hi.
    assert (i = 0 \/ i = 1 \/ i = 2 \/ i = 3)%Z as Hcases by lia.
    destruct Hcases as [->|[->|[->| ->]]]; eexists; (split; [reflexivity|lia]).
  - reflexivity.
  - repeat constructor; lia.
Defined.

(** * Logits *)

(** X13. On a hidden tensor of shape (batch, length, 2 * true_dim) and a weight
    of shape (vocab, true_dim), the head succeeds with logits of shape
    (batch, length, vocab). *)
Theorem RCPSLMHead_forward_shape {R : Type} `{Scalar R}
  (weight : Tensor2 R) (b l vocab true_dim : nat) (x : Tensor3 R) :
  Torch.has_shape b l (2 * true_dim) x = true ->
  Torch.has_shape2 vocab true_dim weight = true ->
  exists y, RCPSLMHead.forward weight x = Some y /\
            Torch.has_shape b l vocab y = true.
Proof.
  intros Hx Hw.
  rewrite (@RCPSLMHead_forward_rowwise R _ weight b l (2 * true_dim) x Hx).
  replace (2 * true_dim / 2) with true_dim
    by (now rewrite Nat.mul_comm, Nat.div_mul).
  exists (map (map (Spec.lm_head_row true_dim weight)) x).
  pose proof Hx as Hx'. apply has_shape_In in Hx' as [Hb Hrows]. split.
  - apply mapM_total; intros m Hm.
    apply mapM_total; intros r Hr.
    apply (@RCPSLMHead_forward_row_spec R _ weight vocab true_dim r Hw).
    now apply (Hrows m Hm).
  - apply has_shape_In. split; [now rewrite length_map|].
    intros m' Hm'. apply in_map_iff in Hm' as (m & <- & Hm).
    split; [rewrite length_map; now apply (Hrows m Hm)|].
    intros r' Hr'. apply in_map_iff in Hr' as (r & <- & Hr).
    apply has_shape2_In in Hw as [Hv _].
    unfold Spec.lm_head_row.
    rewrite length_map, length_combine, length_rev, !length_map. lia.
Qed.

Lemma RCPSLMHead_forward_shape_witness :
  exists y, RCPSLMHead.forward [[1; 2]; [3; 4]; [5; 6]]%Z
              [[[1; 2; 3; 4]; [5; 6; 7; 8]]]%Z = Some y /\
            Torch.has_shape 1 2 3 y = true.
Proof.
  apply (@RCPSLMHead_forward_shape Z Z_Scalar _ 1 2 3 2); reflexivity.
Defined.

(** X14. The head accepts only hidden tensors with twice as many channels as the
    weight is wide: when the forward pass returns on a tensor that has a
    row, every row of the weight has half the channel count of the tensor
    (so an odd channel count, or a weight of another width, raises). *)
Theorem RCPSLMHead_forward_width {R : Type} `{Scalar R}
  (weight : Tensor2 R) (b l c : nat) (x y : Tensor3 R)
  (m : Tensor2 R) (r w : list R) :
  Torch.has_shape b l c x = true ->
  In m x -> In r m -> In w weight ->
  RCPSLMHead.forward weight x = Some y ->
  c = 2 * length w.
Proof.
  intros Hx Hm Hr Hw.
  rewrite (@RCPSLMHead_forward_rowwise R _ weight b l c x Hx).
  intros Hy.
  destruct (mapM_Some_In _ _ m Hy Hm) as (m' & Hm' & _).
  destruct (mapM_Some_In _ _ r Hm' Hr) as (r' & Hr' & _).
  apply has_shape_In in Hx as [_ Hrows].
  destruct (Hrows m Hm) as [_ Hlen]. specialize (Hlen r Hr).
  unfold RCPSLMHead.forward_row, Torch.linear_row in Hr'.
  destruct (forallb (fun w0 => length w0 =? length (firstn (c / 2) r)) weight)
    eqn:Hfst; [|discriminate].
  destruct (forallb (fun w0 => length w0 =? length (rev (skipn (c / 2) r)))
              weight) eqn:Hsnd; [|discriminate].
  rewrite forallb_forall in Hfst, Hsnd.
  apply Hfst in Hw as H1. apply Hsnd in Hw as H2.
  apply Nat.eqb_eq in H1, H2.
  rewrite length_firstn in H1. rewrite length_rev, length_skipn in H2.
  rewrite Hlen in H1, H2.
  pose proof (Nat.div_mod_eq c 2) as Hdiv.
  pose proof (Nat.mod_upper_bound c 2) as Hmod.
  lia.
Qed.

Lemma RCPSLMHead_forward_width_witness :
  4 = 2 * length [1; 2]%Z.
Proof.
  apply (@RCPSLMHead_forward_width Z Z_Scalar [[1; 2]; [3; 4]; [5; 6]]%Z
           1 2 4 [[[1; 2; 3; 4]; [5; 6; 7; 8]]]%Z
           [[[43; 35; 27]; [99; 91; 83]]]%Z
           [[1; 2; 3; 4]; [5; 6; 7; 8]]%Z [1; 2; 3; 4]%Z [1; 2]%Z).
  - reflexivity.
  - now left.
  - now left.
  - now left.
  - reflexivity.
Defined.

(** Three channels for a weight of width one, and four channels for a
    weight of width one: both raise. *)
Example RCPSLMHead_forward_wrong_width :
  RCPSLMHead.forward [[1]]%Z [[[1; 2; 3]]]%Z = None /\
  RCPSLMHead.forward [[1]]%Z [[[1; 2; 3; 4]]]%Z = None.
Proof. split; reflexivity. Qed.

(** * Width of the keep-dim add-norm wrapper, and the constructors *)

Section CastFacts.
Context {R : Type} `{Scalar R}.

Lemma cast_has_shape (to_dtype : R -> R) (b l c : nat) (x : Tensor3 R) :
  Torch.has_shape b l c x = true ->
  Torch.has_shape b l c (RCPSAddNormWrapper.cast to_dtype x) = true.
Proof.
  rewrite !has_shape_In. intros [Hb Hx]. unfold RCPSAddNormWrapper.cast.
  split; [now rewrite length_map|].
  intros m' Hm'. apply in_map_iff in Hm' as (m & <- & Hm).
  destruct (Hx m Hm) as [Hl Hr]. split; [now rewrite length_map|].
  intros r' Hr'. apply in_map_iff in Hr' as (r & <- & Hin).
  rewrite length_map. now apply Hr.
Qed.

End CastFacts.

(** X5. With a residual projection of the allocated size ([dim // 2] rows of
    [dim] entries) and a normalisation layer that keeps shapes, the
    keep-dim add-norm wrapper turns an input (and residual) of [dim]
    channels into two results of [2 * (dim // 2)] channels each: [dim]
    channels for an even [dim], one channel fewer for an odd [dim]. *)
Theorem RCPSAddNormWrapperKeepDim_forward_width {R : Type} `{Scalar R}
  (norm_f : Tensor3 R -> option (Tensor3 R)) (to_dtype : R -> R)
  (res_proj_weight : Tensor2 R) (b l dim : nat)
  (x : Tensor3 R) (residual : option (Tensor3 R)) :
  Torch.has_shape2 (dim / 2) dim res_proj_weight = true ->
  (forall t, Torch.has_shape b l (dim / 2) t = true ->
     exists n, norm_f t = Some n /\ Torch.has_shape b l (dim / 2) n = true) ->
  Torch.has_shape b l dim x = true ->
  match residual with
  | Some r => Torch.has_shape b l dim r = true
  | None => True
  end ->
  exists x' residual',
    RCPSAddNormWrapperKeepDim.forward norm_f to_dtype res_proj_weight
      x residual = Some (x', residual') /\
    Torch.has_shape b l (2 * (dim / 2)) x' = true /\
    Torch.has_shape b l (2 * (dim / 2)) residual' = true.
Proof.
  intros Hw Hnorm Hx Hres.
  unfold RCPSAddNormWrapperKeepDim.forward, RCPSAddNormWrapper.rc.
  assert (exists s, match residual with
                    | Some r => Torch.add x r
                    | None => Some x
                    end = Some s /\ Torch.has_shape b l dim s = true)
    as (s & Hs & Hss).
  { destruct residual as [r|]; [|now exists x].
    now apply add_has_shape. }
  assert (exists s', match residual with
                     | Some r => Torch.add (Torch.flip x) (Torch.flip r)
                     | None => Some (Torch.flip x)
                     end = Some s' /\ Torch.has_shape b l dim s' = true)
    as (s' & Hs' & Hss').
  { destruct residual as [r|].
    - apply add_has_shape; now apply flip_has_shape.
    - exists (Torch.flip x). split; [reflexivity|now apply flip_has_shape]. }
  rewrite Hs, Hs'.
  edestruct (@linear_has_shape R) with (bias := @None (list R))
    as (p1 & Hp1 & Hsp1); [exact Hss | exact Hw | exact I |].
  edestruct (@linear_has_shape R) with (bias := @None (list R))
    as (p2 & Hp2 & Hsp2); [exact Hss' | exact Hw | exact I |].
  destruct (Hnorm _ (cast_has_shape to_dtype _ _ _ _ Hsp1))
    as (n1 & Hn1 & Hsn1).
  destruct (Hnorm _ (cast_has_shape to_dtype _ _ _ _ Hsp2))
    as (n2 & Hn2 & Hsn2).
  edestruct (@cat_last_has_shape R) as (r' & Hr' & Hsr');
    [exact Hsp1 | apply flip_has_shape; exact Hsp2 |].
  edestruct (@cat_last_has_shape R) as (x' & Hx' & Hsx');
    [exact Hsn1 | apply flip_has_shape; exact Hsn2 |].
  exists x', r'.
  rewrite Hp1, Hn1, Hp2, Hn2, Hr', Hx'.
  replace (2 * (dim / 2)) with (dim / 2 + dim / 2) by lia.
  auto.
Qed.

Lemma RCPSAddNormWrapperKeepDim_forward_width_witness :
  exists x' residual',
    RCPSAddNormWrapperKeepDim.forward (fun t => Some t) (fun u => u)
      [[1; 1; 1]]%Z [[[1; 2; 3]; [4; 5; 6]]]%Z
      (Some [[[1; 1; 1]; [2; 2; 2]]]%Z) = Some (x', residual') /\
    Torch.has_shape 1 2 (2 * (3 / 2)) x' = true /\
    Torch.has_shape 1 2 (2 * (3 / 2)) residual' = true.
Proof.
  apply (@RCPSAddNormWrapperKeepDim_forward_width Z Z_Scalar).
  - reflexivity.
  - intros t Ht. exists t. now split.
  - reflexivity.
  - reflexivity.
Defined.

(** X15. The keep-dim wrapper checks the parity before it allocates: the
    constructor raises its assertion exactly for the odd dimensions, also
    the negative ones, and it returns a module only for an even dimension
    from zero on. *)
Theorem RCPSWrapperKeepDim_init_outcomes (dim : Z) :
  (RCPSWrapperKeepDim.init dim = Raise (AssertionError "dim must be even!")
   <-> (dim mod 2 <> 0)%Z) /\
  (raises (RCPSWrapperKeepDim.init dim) = false
   -> (0 <= dim)%Z /\ (dim mod 2 = 0)%Z).
Proof.
  split; [split|].
  - intros Hinit Heven. unfold RCPSWrapperKeepDim.init in Hinit.
    rewrite Heven in Hinit. simpl in Hinit. unfold nn.Linear_init in Hinit.
    destruct ((dim <? 0) || (dim / 2 <? 0))%Z; discriminate.
  - apply RCPSWrapperKeepDim_init_odd.
  - intros Hok.
    destruct (Z.eq_dec (dim mod 2) 0) as [Heven|Hodd].
    + split; [|assumption].
      unfold RCPSWrapperKeepDim.init, nn.Linear_init in Hok.
      rewrite Heven in Hok. simpl in Hok.
      destruct (Z.ltb_spec dim 0); [discriminate|assumption].
    + rewrite (@RCPSWrapperKeepDim_init_odd dim Hodd) in Hok. discriminate.
Qed.

(** X16. A construction of the embedding that succeeds had sizes from zero
    on and an even [d_model]; the module it returns holds the values of the
    complement map in iteration order as its buffer, and a projection whose
    number of outputs is [d_model // 2], exactly half of [d_model]. *)
Theorem RCPSEmbedding_init_outcomes (vocab_size d_model : Z)
  (m : list (Z * Z)) (cfg : RCPSEmbedding.t) :
  RCPSEmbedding.init vocab_size d_model m = Ok cfg ->
  (0 <= vocab_size)%Z /\ (0 <= d_model)%Z /\ (d_model mod 2 = 0)%Z /\
  RCPSEmbedding.complement_map cfg = RCPSEmbedding.complement_buffer m /\
  nn.out_features (RCPSEmbedding.proj cfg) = (d_model / 2)%Z /\
  (2 * nn.out_features (RCPSEmbedding.proj cfg) = d_model)%Z.
Proof.
  intros Hinit.
  destruct (@RCPSEmbedding_init_Ok _ _ _ _ Hinit) as (Hv & Hd & Heven & ->).
  cbn [nn.out_features RCPSEmbedding.proj RCPSEmbedding.complement_map].
  repeat (split; [assumption || reflexivity|]).
  pose proof (Z.div_mod d_model 2). lia.
Qed.

Lemma RCPSEmbedding_init_outcomes_witness :
  (0 <= 4)%Z /\ (0 <= 2)%Z /\ (2 mod 2 = 0)%Z /\
  RCPSEmbedding.complement_map
    {| RCPSEmbedding.complement_map := [1; 0; 3; 2]%Z;
       RCPSEmbedding.embedding :=
         {| nn.num_embeddings := 4; nn.embedding_dim := 2 |};
       RCPSEmbedding.proj :=
         {| nn.in_features := 2; nn.out_features := 1;
            nn.with_bias := true |} |} =
  RCPSEmbedding.complement_buffer [(0, 1); (1, 0); (2, 3); (3, 2)]%Z /\
  nn.out_features
    (RCPSEmbedding.proj
       {| RCPSEmbedding.complement_map := [1; 0; 3; 2]%Z;
          RCPSEmbedding.embedding :=
            {| nn.num_embeddings := 4; nn.embedding_dim := 2 |};
          RCPSEmbedding.proj :=
            {| nn.in_features := 2; nn.out_features := 1;
               nn.with_bias := true |} |}) = (2 / 2)%Z /\
  (2 * nn.out_features
         (RCPSEmbedding.proj
            {| RCPSEmbedding.complement_map := [1; 0; 3; 2]%Z;
               RCPSEmbedding.embedding :=
                 {| nn.num_embeddings := 4; nn.embedding_dim := 2 |};
               RCPSEmbedding.proj :=
                 {| nn.in_features := 2; nn.out_features := 1;
                    nn.with_bias := true |} |}) = 2)%Z.
Proof.
  apply (@RCPSEmbedding_init_outcomes 4 2 [(0, 1); (1, 0); (2, 3); (3, 2)]%Z).
  reflexivity.
Defined.

(** * From ids to strand-independent features *)

Section StrandFacts.
Context {R : Type} `{Scalar R}.

(** One strand of the embedding: look the ids up, then project. *)
Lemma embedding_strand (b l v d h : nat) (ids : Tensor2 Z)
  (weight proj_weight : Tensor2 R) (proj_bias : option (list R)) :
  Torch.has_shape2 b l ids = true ->
  Spec.ids_in_range (Z.of_nat v) ids ->
  Torch.has_shape2 v d weight = true ->
  Torch.has_shape2 h d proj_weight = true ->
  match proj_bias with None => True | Some bv => length bv = h end ->
  exists e p, Torch.embedding ids weight = Some e /\
              Torch.linear e proj_weight proj_bias = Some p /\
              Torch.has_shape b l h p = true.
Proof.
  intros Hids Hrange Hw Hpw Hpb.
  edestruct (@embedding_has_shape R) as (e & He & Hse);
    [exact Hids | exact Hrange | exact Hw |].
  edestruct (@linear_has_shape R H) as (p & Hp & Hsp);
    [exact Hse | exact Hpw | exact Hpb |].
  exists e, p. repeat split; assumption.
Qed.

End StrandFacts.

(** X17. Embedding followed by the collapse does not depend on the strand: for
    an involutive complement buffer that maps the vocabulary into itself,
    parameters of matching sizes and a batch of vocabulary ids, the
    embedding of the batch and the embedding of its reverse complement
    collapse to the same tensor of shape (batch, seq_len, d_model / 2).
    Scalar addition is commutative. *)
Theorem RCPSCollapse_after_RCPSEmbedding {R : Type} `{Scalar R}
  (b l v d h : nat) (cmap : list Z)
  (weight proj_weight : Tensor2 R) (proj_bias : option (list R))
  (s : Tensor2 Z) :
  (forall p q : R, sadd p q = sadd q p) ->
  Spec.involutive_on (Z.of_nat v) cmap ->
  (forall i, (0 <= i < Z.of_nat v)%Z ->
     exists j, Torch.index cmap i = Some j /\ (0 <= j < Z.of_nat v)%Z) ->
  Torch.has_shape2 v d weight = true ->
  Torch.has_shape2 h d proj_weight = true ->
  match proj_bias with None => True | Some bv => length bv = h end ->
  Torch.has_shape2 b l s = true ->
  Spec.ids_in_range (Z.of_nat v) s ->
  exists s' z,
    RCPSEmbedding.rc cmap s = Some s' /\
    (y <- RCPSEmbedding.forward weight proj_weight proj_bias cmap s ;;
     RCPSCollapse.forward y) = Some z /\
    (y <- RCPSEmbedding.forward weight proj_weight proj_bias cmap s' ;;
     RCPSCollapse.forward y) = Some z /\
    Torch.has_shape b l h z = true.
Proof.
  intros Hcomm Hinv Hclosed Hw Hpw Hpb Hs Hrange.
  destruct (@rc_has_shape b l (Z.of_nat v) cmap s Hclosed Hs Hrange)
    as (s' & Hrc & Hs' & Hrange').
  destruct (rc_twice Hinv Hrange) as (s'' & Hrc1 & Hrc2).
  rewrite Hrc in Hrc1. inversion Hrc1; subst s''.
  edestruct (@embedding_strand R H) as (e & p & He & Hp & Hsp);
    [exact Hs | exact Hrange | exact Hw | exact Hpw | exact Hpb |].
  edestruct (@embedding_strand R H) as (e' & q & He' & Hq & Hsq);
    [exact Hs' | exact Hrange' | exact Hw | exact Hpw | exact Hpb |].
  edestruct (@add_has_shape R H) as (t & Ht & Hst); [exact Hsp | exact Hsq |].
  exists s', (Torch.halve t).
  split; [assumption|].
  unfold RCPSEmbedding.forward.
  rewrite He, Hp, Hrc, He', Hq, Hrc2, He, Hp.
  rewrite (@collapse_cat_last R _ b l h p q Hsp Hsq).
  rewrite (@collapse_cat_last R _ b l h q p Hsq Hsp).
  rewrite (@add_comm R _ Hcomm q p), Ht. simpl.
  repeat split. now apply halve_has_shape.
Qed.

Lemma RCPSCollapse_after_RCPSEmbedding_witness :
  exists s' z,
    RCPSEmbedding.rc [1; 0; 3; 2]%Z [[0; 2; 2; 1; 3]]%Z = Some s' /\
    (y <- RCPSEmbedding.forward [[1; 0]; [0; 1]; [2; 5]; [7; 3]]%Z
            [[1; 2]]%Z (Some [4]%Z) [1; 0; 3; 2]%Z [[0; 2; 2; 1; 3]]%Z ;;
     RCPSCollapse.forward y) = Some z /\
    (y <- RCPSEmbedding.forward [[1; 0]; [0; 1]; [2; 5]; [7; 3]]%Z
            [[1; 2]]%Z (Some [4]%Z) [1; 0; 3; 2]%Z s' ;;
     RCPSCollapse.forward y) = Some z /\
    Torch.has_shape 1 5 1 z = true.
Proof.
  apply (@RCPSCollapse_after_RCPSEmbedding Z Z_Scalar 1 5 4 2 1).
  - intros p q. simpl. lia.
  - exact dna_involutive.
  - intros i Hi.
    assert (i = 0 \/ i = 1 \/ i = 2 \/ i = 3)%Z as Hcases by lia.
    destruct Hcases as [->|[->|[->| ->]]]; eexists; (split; [reflexivity|lia]).
  - reflexivity.
  - reflexivity.
  - reflexivity.
  - reflexivity.
  - repeat constructor; lia.
Defined.
